(** * Day4/parallelism.ipynb: chunked matrix product, image filter and the
    pool-driven batch loop.

    The notebook's code cells are embedded as Rocq functions:
    - [Numpy.matrix_loop]    the chunk of [mat.dot(mat.T)] computed by one job;
    - [Image.process_image]  the high-pass filter of the activity;
    - [WorkerPool]           the worker pool the batch loop talks to, as a
                             transition system, and the loop itself
                             ([WorkerPool.run_batch], [WorkerPool.dispatch]);
    - [Processes]            the first cell: one process per chunk and the
                             join loop;
    - [Batch]                the batches and schedules of the examples.
*)

From stdpp Require Import base numbers option list.
From Stdlib Require Import ZArith Lia.
From Stdlib Require String Ascii DecimalString DecimalNat.
From Stdlib Require PrimFloat.

Set Default Proof Using "Type".

(* ===================================================================== *)
(** ** Arrays as the notebook uses them *)
(* ===================================================================== *)

Module Numpy.

(** [l[a:b]] for non-negative bounds: Python clips the slice to the list and
    returns the empty list when [b <= a]. *)
Definition slice {A : Type} (a b : nat) (l : list A) : list A :=
  take (b - a) (drop a l).

(** A 2-D array, row by row. *)
Abbreviation matrix R := (list (list R)).

Section Matrix.
(** The element type of the arrays with the two operations a dot product
    needs.  Nothing is assumed about them: the statements below are about
    which entries are computed, not about their values. *)
Context {R : Type} (zero : R) (add mul : R → R → R).

(** [mat.shape[0]] *)
Definition shape0 (mat : matrix R) : nat := length mat.

(** Inner product of two rows. *)
Definition vdot (u v : list R) : R := foldr add zero (zip_with mul u v).

(** [a.dot(b.T)]: entry (i, j) is the inner product of row i of [a] with
    row j of [b]. *)
Definition dot_T (a b : matrix R) : matrix R := map (λ r, map (vdot r) b) a.

(** Source, both cells that define it:
<<
    def matrix_loop(mat, index):
        index_start = mat.shape[0] // 10 * index
        index_end = mat.shape[0] // 10 * (index + 1)
        val  = mat[index_start:index_end].dot(mat.T)
        return val
>>
    (the Process cell computes the same [val] and drops it). *)
Definition index_start (mat : matrix R) (index : nat) : nat :=
  shape0 mat / 10 * index.

Definition index_end (mat : matrix R) (index : nat) : nat :=
  shape0 mat / 10 * (index + 1).

Definition matrix_loop (mat : matrix R) (index : nat) : matrix R :=
  dot_T (slice (index_start mat index) (index_end mat index) mat) mat.

(** The ten jobs of the notebook, [for i in range(10)], and their values
    put one after the other. *)
Definition all_chunks (mat : matrix R) : matrix R :=
  concat (map (matrix_loop mat) (seq 0 10)).

(** Row [r] of the product is computed by job [i]. *)
Definition computed_by (mat : matrix R) (i r : nat) : Prop :=
  index_start mat i ≤ r < index_end mat i.

End Matrix.
End Numpy.

(* ===================================================================== *)
(** ** The image activity: [process_image] *)
(* ===================================================================== *)

Module Image.

(** A 2-D image, row by row. *)
Abbreviation frame R := (list (list R)).

(** numpy arrays are mutable objects passed by reference.  The heap holds
    the arrays that exist, an address is a position in it, and an operation
    that builds an array allocates a fresh one. *)
Abbreviation heap R := (list (frame R)).
Abbreviation addr := nat.

Section Filter.
(** Pixels, their subtraction and the order the median is taken in.  The
    notebook's frames hold IEEE doubles; [process_image_float] below is
    that instance. *)
Context {R : Type} (sub : R → R → R) (leb : R → R → bool).

(** [frame.shape], read off the rows. *)
Definition shape (f : frame R) : nat * nat :=
  (length f, length (hd [] f)).

(** *** scipy.ndimage.median_filter

    The library routine [process_image] calls.  Its code is not part of
    the notebook; this is the routine as its documentation gives it for a
    2-D input and an integer [size]: a [size] x [size] window centred at
    [size // 2], the image continued past its border by reflection
    (mode 'reflect', the default: d c b a | a b c d | d c b a), each output
    pixel the element of rank [size * size // 2] of its window.  A size
    below 1 is refused with an exception. *)

Definition reflect (n : nat) (i : Z) : nat :=
  let m := (i `mod` (2 * Z.of_nat n))%Z in
  Z.to_nat (if (m <? Z.of_nat n)%Z then m else (2 * Z.of_nat n - 1 - m)%Z).

(** The pixel at (y, x) of the continued image; [d] stands in where the
    image has no pixel at all. *)
Definition pixel (f : frame R) (d : R) (y x : Z) : R :=
  let row := nth (reflect (length f) y) f [] in
  nth (reflect (length row) x) row d.

Definition window (f : frame R) (d : R) (size y x : Z) : list R :=
  flat_map (λ dy,
    map (λ dx, pixel f d (y + dy - size `div` 2) (x + dx - size `div` 2))%Z
        (seqZ 0 size))
    (seqZ 0 size).

Fixpoint insert_sorted (v : R) (l : list R) : list R :=
  match l with
  | [] => [v]
  | u :: l' => if leb v u then v :: l else u :: insert_sorted v l'
  end.

Definition sort (l : list R) : list R := foldr insert_sorted [] l.

Definition median (d : R) (l : list R) : R :=
  nth (length l / 2) (sort l) d.

Definition median_filter (f : frame R) (size : Z) : option (frame R) :=
  if (size <=? 0)%Z then None
  else Some (imap (λ y row,
               imap (λ x v,
                 median v (window f v size (Z.of_nat y) (Z.of_nat x))) row) f).

(** [a - b] on arrays of one shape: element by element. *)
Definition ndarray_sub (a b : frame R) : frame R := zip_with (zip_with sub) a b.

Definition alloc (h : heap R) (a : frame R) : heap R * addr := (h ++ [a], length h).

(** [ndimage.median_filter(src, size)] with no [output] argument: reads
    [src], returns a new array. *)
Definition ndimage_median_filter (h : heap R) (src : addr) (size : Z)
  : option (heap R * addr) :=
  a ← h !! src;
  out ← median_filter a size;
  Some (alloc h out).

(** [x - y]: reads both, returns a new array. *)
Definition ndarray_minus (h : heap R) (x y : addr) : option (heap R * addr) :=
  a ← h !! x;
  b ← h !! y;
  Some (alloc h (ndarray_sub a b)).

(** Source:
<<
    def process_image(frame, filtersize=50):
        frame_smooth = ndimage.median_filter(frame, filtersize)
        processed_frame = frame - frame_smooth
        return processed_frame
>>
    [None] is an exception leaving the function. *)
Definition process_image (h : heap R) (frame : addr) (filtersize : Z)
  : option (heap R * addr) :=
  '(h1, frame_smooth) ← ndimage_median_filter h frame filtersize;
  ndarray_minus h1 frame frame_smooth.

(** A frame whose pixels all hold [c]. *)
Definition constant_frame (c : R) (f : frame R) : Prop :=
  Forall (Forall (λ v, v = c)) f.

(** [u] is the value of some pixel of [f]. *)
Definition pixel_of (f : frame R) (u : R) : Prop :=
  ∃ row, row ∈ f ∧ u ∈ row.

End Filter.

(** [process_image] on frames of doubles, as the notebook reads them from
    the FITS files. *)
Definition process_image_float :=
  process_image PrimFloat.sub PrimFloat.leb.

End Image.

(* ===================================================================== *)
(** ** The worker pool and the batch loop *)
(* ===================================================================== *)

Module WorkerPool.

(** What a task leaves behind: the value it returned or the exception it
    raised. *)
Inductive Result (V E : Type) : Type :=
| Value (v : V)
| Failure (e : E).
Arguments Value {V E} v.
Arguments Failure {V E} e.

(** What a caller of the pool can see raised. *)
Inductive Exn (E : Type) : Type :=
| TaskError (e : E)
| PoolClosed
| AttributeError.
Arguments TaskError {E} e.
Arguments PoolClosed {E}.
Arguments AttributeError {E}.

(** Life cycle of a pool: accepting work, inside a [shutdown(wait)] call,
    shut down. *)
Inductive Phase : Type :=
| Open
| Closing (wait : bool)
| Closed.

(** A job handle (the [AsyncResult] that [apply_async] returns): the
    position of the job among the accepted ones. *)
Abbreviation handle := nat.

Section Pool.
(** A task is a function with its arguments, [(matrix_loop, (mat, i))] in
    the notebook; [call] is what running it in a worker gives, whatever
    function the worker holds under that name.  [has_shape] tells the
    values that have a [shape] attribute (arrays) from those that have
    none (a Python int, [None]). *)
Context {Task V E : Type} (call : Task → Result V E) (has_shape : V → bool).

(** Modelled from the spec: the worker pool of sections 3 and 4.1, which
    the notebook takes ready-made from [multiprocessing] and whose code is
    not among the sources.  A pool has [capacity] worker slots, each idle
    or running one job; accepted jobs wait in [queue] until a slot takes
    them; a finished job's Result is appended to [results], so that list
    is in completion order; [abandoned] holds the jobs dropped by
    [shutdown(wait=false)]. *)
Record Pool : Type := mkPool {
  capacity : nat;
  phase : Phase;
  jobs : list Task;
  queue : list handle;
  workers : list (option handle);
  results : list (handle * Result V E);
  abandoned : list handle
}.

(** Jobs in flight, and how many there are. *)
Definition running (p : Pool) : list handle := omap id (workers p).
Definition active_count (p : Pool) : nat := length (running p).

(** Modelled from the spec: construction of the pool with a capacity above
    zero ([multiprocessing.Pool(processes=n)] in the notebook): [n] idle
    workers, nothing accepted yet.  No pool is made of zero workers. *)
Definition Pool_new (processes : nat) : option Pool :=
  if decide (processes = 0) then None
  else Some (mkPool processes Open [] [] (replicate processes None) [] []).

(** Answer of a submission. *)
Inductive Submitted : Type :=
| Handle (h : handle)
| Refused (e : Exn E).

(** Modelled from the spec: [submit(task)], which the notebook calls as
    [pool.apply_async(f, args)].  It never blocks; an open pool queues the
    job and hands back its handle, any other refuses with [PoolClosed] and
    is left as it was. *)
Definition apply_async (t : Task) (p : Pool) : Pool * Submitted :=
  match phase p with
  | Open =>
      let h := length (jobs p) in
      (mkPool (capacity p) Open (jobs p ++ [t]) (queue p ++ [h])
              (workers p) (results p) (abandoned p),
       Handle h)
  | _ => (p, Refused PoolClosed)
  end.

(** Modelled from the spec: a worker slot pulls a task.  Idle worker [w]
    takes the queued job [h], any of the queued ones, and starts running
    it. *)
Definition start (w : nat) (h : handle) (p : Pool) : option Pool :=
  match workers p !! w with
  | Some None =>
      if decide (h ∈ queue p) then
        Some (mkPool (capacity p) (phase p) (jobs p)
                     (filter (λ x, x ≠ h) (queue p))
                     (<[w := Some h]> (workers p)) (results p) (abandoned p))
      else None
  | _ => None
  end.

(** Modelled from the spec: a task runs to completion.  Worker [w]
    completes its job: the Result is recorded and the slot is free again. *)
Definition finish (w : nat) (p : Pool) : option Pool :=
  match workers p !! w with
  | Some (Some h) =>
      t ← jobs p !! h;
      Some (mkPool (capacity p) (phase p) (jobs p) (queue p)
                   (<[w := None]> (workers p))
                   (results p ++ [(h, call t)]) (abandoned p))
  | _ => None
  end.

(** Modelled from the spec: [shutdown(wait)], which the notebook never
    calls.  This is the call: the pool stops accepting; without [wait] the
    jobs still queued are abandoned.  A pool is shut down once. *)
Definition shutdown (wait : bool) (p : Pool) : option Pool :=
  match phase p with
  | Open =>
      Some (if wait
            then mkPool (capacity p) (Closing true) (jobs p) (queue p)
                        (workers p) (results p) (abandoned p)
            else mkPool (capacity p) (Closing false) (jobs p) []
                        (workers p) (results p) (abandoned p ++ queue p))
  | _ => None
  end.

(** Modelled from the spec: the return of [shutdown(wait)], with [wait]
    only once nothing is queued or in flight, without it at any moment. *)
Definition shutdown_return (p : Pool) : option Pool :=
  let closed := mkPool (capacity p) Closed (jobs p) (queue p) (workers p)
                       (results p) (abandoned p) in
  match phase p with
  | Closing true =>
      if decide (queue p = [] ∧ running p = []) then Some closed else None
  | Closing false => Some closed
  | _ => None
  end.

(** The stored Result of job [h], if it has finished. *)
Fixpoint find_result (h : handle) (rs : list (handle * Result V E))
  : option (Result V E) :=
  match rs with
  | [] => None
  | (h', r) :: rs' => if decide (h' = h) then Some r else find_result h rs'
  end.

Definition result_of (h : handle) (p : Pool) : option (Result V E) :=
  find_result h (results p).

(** *** The pool as a transition system

    What can happen to a pool, one event at a time.  [Submit] and the two
    shutdown events are its caller's moves, [Start] and [Finish] are the
    workers'; which of the enabled events happens next is not fixed. *)
Inductive event : Type :=
| Submit (t : Task)
| Start (w : nat) (h : handle)
| Finish (w : nat)
| Shutdown (wait : bool)
| ShutdownReturn.

Definition step (e : event) (p : Pool) : option Pool :=
  match e with
  | Submit t => Some (apply_async t p).1
  | Start w h => start w h p
  | Finish w => finish w p
  | Shutdown wait => shutdown wait p
  | ShutdownReturn => shutdown_return p
  end.

Fixpoint exec (tr : list event) (p : Pool) : option Pool :=
  match tr with
  | [] => Some p
  | e :: tr' => p' ← step e p; exec tr' p'
  end.

(** The workers' own events. *)
Definition worker_event (e : event) : Prop :=
  match e with
  | Start _ _ | Finish _ => True
  | _ => False
  end.

(** How often job [h] was started in a trace. *)
Definition is_start (h : handle) (e : event) : bool :=
  match e with
  | Start _ h' => bool_decide (h' = h)
  | _ => false
  end.

Definition starts (h : handle) (tr : list event) : nat :=
  length (filter (λ e, is_start h e = true) tr).

(** Results recorded for job [h]. *)
Definition results_for (h : handle) (p : Pool) : list (Result V E) :=
  (filter (λ x, x.1 = h) (results p)).*2.

(** Nothing left for the workers to do. *)
Definition idle (p : Pool) : Prop := queue p = [] ∧ running p = [].

(** *** The batch loop

    Source, generalised from [range(10)] to a list of tasks:
<<
    pool_jobs = []
    for i in range(10):
        job = pool.apply_async(matrix_loop, (mat, i))
        pool_jobs.append(job)
    for i, job in enumerate(pool_jobs):
        result = job.get()
        print("Result {0}".format(i), result.shape)
>>
    The loop's state: still submitting ([todo], [pool_jobs]), collecting
    (the handles not yet waited on and the results received so far, one
    per printed line), through with all results, or left by an exception.
    [job.get()] waits until the job has finished; it returns the task's
    value, and re-raises the task's exception if it raised one.  The
    [print] of the second loop reads [result.shape], which raises
    [AttributeError] on a value without that attribute; [got] holds the
    results whose line was printed. *)
Inductive Dispatcher : Type :=
| Submitting (todo : list Task) (pool_jobs : list handle)
| Collecting (pending : list handle) (got : list V)
| Returned (got : list V)
| Raised (got : list V) (e : Exn E).

Definition run_batch (tasks : list Task) : Dispatcher := Submitting tasks [].

(** One statement of the loop; [None] when it cannot move: it is blocked
    in [get], or it is over. *)
Definition dispatch (p : Pool) (d : Dispatcher) : option (Pool * Dispatcher) :=
  match d with
  | Submitting [] js => Some (p, Collecting js [])
  | Submitting (t :: todo) js =>
      match apply_async t p with
      | (p', Handle h) => Some (p', Submitting todo (js ++ [h]))
      | (p', Refused e) => Some (p', Raised [] e)
      end
  | Collecting [] got => Some (p, Returned got)
  | Collecting (h :: pending) got =>
      match result_of h p with
      | None => None
      | Some (Value v) =>
          if has_shape v then Some (p, Collecting pending (got ++ [v]))
          else Some (p, Raised got AttributeError)
      | Some (Failure e) => Some (p, Raised got (TaskError e))
      end
  | Returned _ | Raised _ _ => None
  end.

Definition finished (d : Dispatcher) : Prop :=
  match d with
  | Returned _ | Raised _ _ => True
  | _ => False
  end.

#[global] Instance finished_dec (d : Dispatcher) : Decision (finished d).
Proof. destruct d; simpl; apply _. Defined.

#[global] Instance idle_dec (p : Pool) : Decision (idle p).
Proof. unfold idle. apply _. Defined.

(** The loop and the workers side by side: a schedule says who moves. *)
Inductive action : Type :=
| Dispatch
| WorkerStart (w : nat) (h : handle)
| WorkerFinish (w : nat).

Definition System : Type := Pool * Dispatcher.

Definition sys_step (a : action) (s : System) : option System :=
  match a with
  | Dispatch => dispatch s.1 s.2
  | WorkerStart w h => p' ← start w h s.1; Some (p', s.2)
  | WorkerFinish w => p' ← finish w s.1; Some (p', s.2)
  end.

Fixpoint sys_exec (sched : list action) (s : System) : option System :=
  match sched with
  | [] => Some s
  | a :: sched' => s' ← sys_step a s; sys_exec sched' s'
  end.

(** The loop is over and the workers have nothing left. *)
Definition quiescent (s : System) : Prop := finished s.2 ∧ idle s.1.

(** What the second loop makes of the tasks' Results taken in submission
    order: the values up to the first failure, which it re-raises, or up
    to the first value without a shape, where its [print] raises. *)
Fixpoint collect (got : list V) (rs : list (Result V E)) : Dispatcher :=
  match rs with
  | [] => Returned got
  | Value v :: rs' =>
      if has_shape v then collect (got ++ [v]) rs'
      else Raised got AttributeError
  | Failure e :: _ => Raised got (TaskError e)
  end.

(** The sequence [run_batch] hands back, one slot per task, when it hands
    one back at all. *)
Definition returned_slots (d : Dispatcher) : option (list (Result V E)) :=
  match d with
  | Returned got => Some (Value <$> got)
  | _ => None
  end.

(** *** Invariants of the reachable states *)

(** Where the accepted jobs are: every one of them is queued, in flight,
    finished or abandoned. *)
Definition owners (p : Pool) : list handle :=
  queue p ++ running p ++ (results p).*1 ++ abandoned p.

Record pool_inv (p : Pool) : Prop := mk_pool_inv {
  inv_capacity : 0 < capacity p;
  inv_workers : length (workers p) = capacity p;
  inv_owners : owners p ≡ₚ seq 0 (length (jobs p));
  inv_results : ∀ h r, (h, r) ∈ results p →
                       ∃ t, jobs p !! h = Some t ∧ r = call t;
  inv_kept : phase p = Open ∨ phase p = Closing true → abandoned p = [];
  inv_drained : phase p = Closing false ∨ phase p = Closed → queue p = []
}.

(** Whether job [h] has been taken up by a worker. *)
Definition started (h : handle) (p : Pool) : nat :=
  if decide (h ∈ running p ++ (results p).*1) then 1 else 0.

(** Worker events still to come: a queued job is started and finished, a
    running one finished. *)
Definition pool_work (p : Pool) : nat := 2 * length (queue p) + active_count p.

(** Statements the loop has yet to execute, the workers' share of a
    submission included. *)
Definition loop_work (d : Dispatcher) : nat :=
  match d with
  | Submitting todo js => 4 * length todo + length js + 2
  | Collecting pending _ => length pending + 1
  | Returned _ | Raised _ _ => 0
  end.

Definition sys_work (s : System) : nat := pool_work s.1 + loop_work s.2.

(** The loop's state against the batch [tasks] it was given. *)
Definition loop_inv (tasks : list Task) (p : Pool) (d : Dispatcher) : Prop :=
  match d with
  | Submitting todo js =>
      tasks = jobs p ++ todo ∧ js = seq 0 (length (jobs p))
  | Collecting pending got =>
      jobs p = tasks ∧
      ∃ k, k ≤ length tasks ∧ pending = seq k (length tasks - k) ∧
           collect got (call <$> drop k tasks) = collect [] (call <$> tasks)
  | Returned _ | Raised _ _ =>
      jobs p = tasks ∧ d = collect [] (call <$> tasks)
  end.

Definition sys_inv (tasks : list Task) (s : System) : Prop :=
  pool_inv s.1 ∧ phase s.1 = Open ∧ loop_inv tasks s.1 s.2.

(** The results the second loop has received so far. *)
Definition received (d : Dispatcher) : list V :=
  match d with
  | Submitting _ _ => []
  | Collecting _ got | Returned got | Raised got _ => got
  end.

(** They are the values of the first tasks of the batch, and the loop
    waits next on the handle after them. *)
Definition received_inv (tasks : list Task) (d : Dispatcher) : Prop :=
  Value <$> received d = call <$> take (length (received d)) tasks ∧
  match d with
  | Collecting pending got =>
      pending = seq (length got) (length tasks - length got)
  | _ => True
  end.

End Pool.

Arguments Pool : clear implicits.
Arguments Dispatcher : clear implicits.
Arguments System : clear implicits.
Arguments Submitted : clear implicits.
Arguments event : clear implicits.

End WorkerPool.

(* ===================================================================== *)
(** ** The first cell: one process per chunk, then a join for each *)
(* ===================================================================== *)

Module Processes.

(** A started [multiprocessing.Process]: running its target, or exited. *)
Inductive Process : Type := Alive | Exited.

#[global] Instance Process_eq_dec : EqDecision Process.
Proof. solve_decision. Defined.

Section Master.
Context {Args : Type}.

(** Source:
<<
      process_list = []
      for i in range(10):
          p = multiprocessing.Process(target=matrix_loop, args=(mat, i))
          process_list.append(p)
          p.start()
      for p in process_list:
          p.join()
>>
      The master script is in the first loop with arguments still to hand
      out, in the second loop about to join process [k], or past it.
      [p.join()] returns once [p] has exited and blocks until then. *)
Inductive Master : Type :=
| Starting (todo : list Args)
| Joining (k : nat)
| Joined.

Definition State : Type := list Process * Master.

Inductive move : Type :=
| Script
| Exit (i : nat).

Definition proc_step (m : move) (s : State) : option State :=
  match m with
  | Script =>
      match s.2 with
      | Starting [] => Some (s.1, Joining 0)
      | Starting (_ :: todo) => Some (s.1 ++ [Alive], Starting todo)
      | Joining k =>
          match s.1 !! k with
          | None => Some (s.1, Joined)
          | Some Exited => Some (s.1, Joining (S k))
          | Some Alive => None
          end
      | Joined => None
      end
  | Exit i =>
      match s.1 !! i with
      | Some Alive => Some (<[i := Exited]> s.1, s.2)
      | _ => None
      end
  end.

Fixpoint proc_exec (ms : list move) (s : State) : option State :=
  match ms with
  | [] => Some s
  | m :: ms' => s' ← proc_step m s; proc_exec ms' s'
  end.

Definition spawn_and_join (args : list Args) : State := ([], Starting args).

Definition join_inv (args : list Args) (s : State) : Prop :=
  match s.2 with
  | Starting todo => length s.1 + length todo = length args
  | Joining k =>
      length s.1 = length args ∧ Forall (λ p, p = Exited) (take k s.1)
  | Joined => length s.1 = length args ∧ Forall (λ p, p = Exited) s.1
  end.

(** Processes running right now. *)
Definition alive (ps : list Process) : nat :=
  length (filter (λ p, p = Alive) ps).

(** Moves still to come: every live process exits once, and the script
    has its statements left. *)
Definition proc_work (s : State) : nat :=
  alive s.1 +
  match s.2 with
  | Starting todo => 3 * length todo + length s.1 + 2
  | Joining k => length s.1 - k + 1
  | Joined => 0
  end.

End Master.
End Processes.

(* ===================================================================== *)
(** ** The files of the image activity *)
(* ===================================================================== *)

Module Files.
Import Stdlib.Strings.String Stdlib.Strings.Ascii.
Import Stdlib.Numbers.DecimalString.

(** [str(n)] of a non-negative integer: its decimal digits. *)
Definition str (n : nat) : string :=
  NilEmpty.string_of_uint (Nat.to_uint n).

(** Source:
<<
    fileformat = os.path.join("../example_data", "fake_{0}x{1}_{2}.fits")
    ...
    filename = fileformat.format(ny, nx, i)
>>
    with the path joined by a slash. *)
Definition fileformat (ny nx i : nat) : string :=
  String.append "../example_data/fake_"
    (String.append (str ny)
       (String "x" (String.append (str nx)
          (String "_" (String.append (str i) ".fits"))))).

(** The names the generation loop writes to, [for i in range(25)]. *)
Definition generated (ny nx : nat) : list string :=
  List.map (fileformat ny nx) (seq 0 25).

(** The name the next cell opens: [fileformat.format(ny, nx, 0)]. *)
Definition opened (ny nx : nat) : string := fileformat ny nx 0.

(** Character [c] does not occur in [s]. *)
Fixpoint free (c : ascii) (s : string) : Prop :=
  match s with
  | EmptyString => True
  | String c' s' => c' ≠ c ∧ free c s'
  end.

End Files.

(* ===================================================================== *)
(** ** Batches to run *)
(* ===================================================================== *)

Module Batch.
Import WorkerPool.

(** [range(a, b)] and [sum] over Python integers. *)
Definition range (a b : Z) : list Z := seqZ a (b - a).
Definition sum (l : list Z) : Z := foldl Z.add 0%Z l.

(** Task [i] of the worked example: [sum(range(i*100, (i+1)*100))]. *)
Definition sum_task (i : nat) : Z :=
  sum (range (Z.of_nat i * 100) ((Z.of_nat i + 1) * 100)).

(** What a task hands back to the loop: a Python [int], which has no
    attribute [shape], or a numpy scalar ([numpy.int64], here without its
    wrap-around: the sums below are far from it), whose [shape] is [()]. *)
Inductive Number : Type :=
  | int (z : Z)
  | int64 (z : Z).

(** Whether [result.shape] of line 120 can be evaluated. *)
Definition hasattr_shape (v : Number) : bool :=
  match v with
  | int _ => false
  | int64 _ => true
  end.

Definition call_sum (i : nat) : Result Number unit := Value (int (sum_task i)).

(** The same tasks, except that task [bad] raises. *)
Definition call_sum_but (bad : nat) (i : nat) : Result Number unit :=
  if decide (i = bad) then Failure () else Value (int (sum_task i)).

(** The same sums as numpy scalars: [np.sum(np.arange(i*100, (i+1)*100))]. *)
Definition call_np_sum (i : nat) : Result Number unit :=
  Value (int64 (sum_task i)).

Definition call_np_sum_but (bad : nat) (i : nat) : Result Number unit :=
  if decide (i = bad) then Failure () else Value (int64 (sum_task i)).

(** Schedules: the loop submits everything, one worker runs the jobs in
    the given order, the loop moves [gets] more times. *)
Definition one_by_one (order : list nat) (n gets : nat) : list action :=
  replicate (S n) Dispatch
  ++ flat_map (λ i, [WorkerStart 0 i; WorkerFinish 0]) order
  ++ replicate gets Dispatch.

(** Four workers at once, the last started finishing first; the loop
    moves [gets] more times. *)
Definition four_at_once (gets : nat) : list action :=
  replicate 11 Dispatch
  ++ [WorkerStart 0 0; WorkerStart 1 1; WorkerStart 2 2; WorkerStart 3 3;
      WorkerFinish 3; WorkerFinish 2; WorkerFinish 1; WorkerFinish 0;
      WorkerStart 3 9; WorkerStart 2 8; WorkerStart 1 7; WorkerStart 0 6;
      WorkerFinish 0; WorkerFinish 1; WorkerFinish 2; WorkerFinish 3;
      WorkerStart 1 5; WorkerStart 2 4; WorkerFinish 1; WorkerFinish 2]
  ++ replicate gets Dispatch.

(** [multiprocessing.Pool(processes=4)], written out. *)
Definition pool4 {Task V E : Type} : Pool Task V E :=
  mkPool 4 Open [] [] [None; None; None; None] [] [].

Definition pool1 {Task V E : Type} : Pool Task V E :=
  mkPool 1 Open [] [] [None] [] [].

(** A pool of one worker shut down without waiting while its first job
    runs and a second is queued. *)
Definition shut_down_early : list (event nat) :=
  [Submit 0; Submit 1; Start 0 0; Shutdown false; ShutdownReturn; Finish 0].

End Batch.

(* ===================================================================== *)
(** * Properties *)
(* ===================================================================== *)

(** ** Chunks of the matrix product *)

Section MatrixFacts.
Import Numpy.
Context {R : Type} (zero : R) (add mul : R → R → R).

Local Abbreviation dot_T := (dot_T zero add mul).
Local Abbreviation matrix_loop := (matrix_loop zero add mul).
Local Abbreviation all_chunks := (all_chunks zero add mul).

Lemma length_dot_T (a b : matrix R) : length (dot_T a b) = length a.
Proof. unfold Numpy.dot_T. by rewrite length_map. Qed.

(** Slicing rows before the product is slicing the product's rows. *)
Lemma dot_T_slice (a b : matrix R) (i j : nat) :
  dot_T (slice i j a) b = slice i j (dot_T a b).
Proof.
  unfold Numpy.dot_T, slice.
  change (map ?f ?l) with (f <$> l).
  by rewrite fmap_take, fmap_drop.
Qed.

(** Consecutive slices of width [q] add up to a prefix. *)
Lemma concat_slices {A : Type} (q k : nat) (l : list A) :
  concat (map (λ i, slice (q * i) (q * (i + 1)) l) (seq 0 k)) = take (q * k) l.
Proof.
  induction k as [|k IH].
  - by rewrite Nat.mul_0_r, take_0.
  - rewrite seq_S, map_app, concat_app, IH. simpl.
    rewrite app_nil_r. unfold slice.
    replace (q * (k + 1) - q * k) with q by lia.
    rewrite take_take_drop. f_equal. lia.
Qed.

Lemma take_all_iff {A : Type} (n : nat) (l : list A) :
  take n l = l ↔ length l ≤ n.
Proof.
  split.
  - intros H. apply (f_equal length) in H. rewrite length_take in H. lia.
  - apply take_ge.
Qed.

(** C9.  For every matrix: job [i] computes rows
    [shape0 // 10 * i .. shape0 // 10 * (i + 1)) of [mat.dot(mat.T)];
    no row is computed by two jobs; the ten chunks in index order are the
    first [10 * (shape0 // 10)] rows of the product, hence the whole
    product exactly when [shape0] is a multiple of 10; and the rows no
    job computes are the last [shape0 mod 10]. *)
Theorem matrix_loop_chunks (mat : matrix R) :
  (∀ i, matrix_loop mat i
        = slice (shape0 mat / 10 * i) (shape0 mat / 10 * (i + 1)) (dot_T mat mat)) ∧
  (∀ i j r, i ≠ j → ¬ (computed_by mat i r ∧ computed_by mat j r)) ∧
  all_chunks mat = take (10 * (shape0 mat / 10)) (dot_T mat mat) ∧
  (all_chunks mat = dot_T mat mat ↔ shape0 mat `mod` 10 = 0) ∧
  (∀ r, r < shape0 mat →
        ((∃ i, i < 10 ∧ computed_by mat i r) ↔ r < shape0 mat - shape0 mat `mod` 10)).
Proof.
  pose proof (Nat.div_mod_eq (shape0 mat) 10) as Hdm.
  pose proof (Nat.mod_upper_bound (shape0 mat) 10) as Hub.
  assert (Hall : all_chunks mat = take (10 * (shape0 mat / 10)) (dot_T mat mat)).
  { unfold Numpy.all_chunks.
    rewrite <- (Nat.mul_comm (shape0 mat / 10)).
    rewrite <- concat_slices. f_equal. apply map_ext. intros i.
    unfold Numpy.matrix_loop, index_start, index_end. apply dot_T_slice. }
  split; [|split; [|split; [|split]]].
  - intros i. unfold Numpy.matrix_loop, index_start, index_end.
    apply dot_T_slice.
  - intros i j r Hij [[Hi1 Hi2] [Hj1 Hj2]].
    unfold index_start, index_end in *.
    destruct (decide (i < j)); nia.
  - exact Hall.
  - rewrite Hall. etransitivity; [apply take_all_iff|].
    rewrite length_dot_T. unfold shape0 in *. lia.
  - intros r Hr. unfold computed_by, index_start, index_end. split.
    + intros (i & Hi & H1 & H2). nia.
    + intros Hlt. exists (r / (shape0 mat / 10)).
      assert (Hq : shape0 mat / 10 ≠ 0) by lia.
      pose proof (Nat.div_mod_eq r (shape0 mat / 10)) as Hr'.
      pose proof (Nat.mod_upper_bound r (shape0 mat / 10) Hq) as Hrb.
      split; [|split]; [apply Nat.Div0.div_lt_upper_bound; lia| lia | lia ].
Qed.

End MatrixFacts.

(** ** The image filter *)

Section ImageFacts.
Import Image.
Context {R : Type} (sub : R → R → R) (leb : R → R → bool).

Local Abbreviation median_filter := (median_filter leb).
Local Abbreviation process_image := (process_image sub leb).
Local Abbreviation ndarray_sub := (ndarray_sub sub).

Lemma Forall_nth_default {A : Type} (P : A → Prop) (l : list A) (k : nat) (d : A) :
  Forall P l → P d → P (nth k l d).
Proof.
  intros Hl Hd. revert k. induction Hl as [|x l Hx Hl IH]; intros [|k]; simpl; auto.
Qed.

Lemma insert_sorted_Forall (P : R → Prop) (v : R) (l : list R) :
  P v → Forall P l → Forall P (insert_sorted leb v l).
Proof.
  intros Hv Hl. induction Hl as [|u l Hu Hl IH]; simpl.
  - by constructor.
  - destruct (leb v u); repeat constructor; auto.
Qed.

Lemma sort_Forall (P : R → Prop) (l : list R) :
  Forall P l → Forall P (sort leb l).
Proof.
  induction 1 as [|u l Hu Hl IH]; simpl; [constructor|].
  by apply insert_sorted_Forall.
Qed.

(** The continued image of a constant frame holds the constant everywhere. *)
Lemma pixel_constant (c : R) (f : frame R) (y x : Z) :
  constant_frame c f → pixel f c y x = c.
Proof.
  intros Hf. unfold pixel.
  apply (Forall_nth_default (λ v, v = c)); [|done].
  apply (Forall_nth_default (Forall (λ v, v = c))); [done|constructor].
Qed.

Lemma window_constant (c : R) (f : frame R) (size y x : Z) :
  constant_frame c f → Forall (λ v, v = c) (window f c size y x).
Proof.
  intros Hf. unfold window. apply List.Forall_forall. intros v Hv.
  apply in_flat_map in Hv as (dy & _ & Hv).
  apply in_map_iff in Hv as (dx & <- & _).
  by apply pixel_constant.
Qed.

Lemma median_constant (c : R) (l : list R) :
  Forall (λ v, v = c) l → median leb c l = c.
Proof.
  intros Hl. unfold median.
  apply (Forall_nth_default (λ v, v = c)); [|done].
  by apply sort_Forall.
Qed.

Lemma imap_fixed {A : Type} (P : A → Prop) (g : nat → A → A) (l : list A) :
  (∀ k v, P v → g k v = v) → Forall P l → imap g l = l.
Proof.
  intros Hg Hl. revert g Hg.
  induction Hl as [|v l Hv Hl IH]; intros g Hg; simpl; [done|].
  rewrite Hg by done. f_equal. apply IH. intros k u Hu. by apply Hg.
Qed.

(** A median filter leaves a constant frame as it is. *)
Lemma median_filter_constant (c : R) (f : frame R) (size : Z) :
  (1 ≤ size)%Z → constant_frame c f → median_filter f size = Some f.
Proof.
  intros Hsize Hf. unfold Image.median_filter.
  destruct (Z.leb_spec size 0) as [?|_]; [lia|]. f_equal.
  apply (imap_fixed (Forall (λ v, v = c))); [|done].
  intros y row Hrow.
  apply (imap_fixed (λ v, v = c)); [|done].
  intros x v ->. apply median_constant. by apply window_constant.
Qed.

Lemma median_filter_lengths (f out : frame R) (size : Z) :
  median_filter f size = Some out → length <$> out = length <$> f.
Proof.
  unfold Image.median_filter. destruct (size <=? 0)%Z; [done|].
  intros [= <-]. apply list_eq. intros y.
  rewrite !list_lookup_fmap, list_lookup_imap.
  destruct (f !! y) as [row|]; simpl; [|done].
  by rewrite length_imap.
Qed.

Lemma median_filter_size (f : frame R) (size : Z) :
  is_Some (median_filter f size) ↔ (1 ≤ size)%Z.
Proof.
  unfold Image.median_filter. destruct (Z.leb_spec size 0); split.
  - by intros [? ?].
  - lia.
  - lia.
  - eauto.
Qed.

Lemma ndarray_sub_lengths (a b : frame R) :
  length <$> b = length <$> a → length <$> ndarray_sub a b = length <$> a.
Proof.
  unfold Image.ndarray_sub. revert b.
  induction a as [|r a IH]; intros [|r' b]; simpl; try done.
  intros [= Hr Hab]. f_equal; [|by apply IH].
  rewrite length_zip_with. lia.
Qed.

Lemma ndarray_sub_constant (c : R) (f : frame R) :
  constant_frame c f → constant_frame (sub c c) (ndarray_sub f f).
Proof.
  unfold constant_frame, Image.ndarray_sub.
  induction 1 as [|r f Hr Hf IH]; simpl; constructor; [|done].
  clear -Hr. induction Hr as [|v r -> Hr IH]; simpl; constructor; done.
Qed.

Lemma shape_lengths (a b : frame R) :
  length <$> a = length <$> b → shape a = shape b.
Proof.
  destruct a, b; simpl; try done. intros [= H1 H2].
  unfold shape. simpl. apply (f_equal length) in H2.
  rewrite !length_fmap in H2. congruence.
Qed.

(** C10, as it holds.  When [frame] is an array of the heap and the filter
    size is at least 1, [process_image] returns a new array equal to
    [frame - median_filter(frame, filtersize)], of the shape of [frame];
    [frame] and every other array that existed are as they were; and when
    every pixel of [frame] holds one value [c] with [c - c = zero], every
    pixel of the returned array is [zero]. *)
Theorem process_image_high_pass
    (h : heap R) (frame : addr) (filtersize : Z) (a : Image.frame R) :
  h !! frame = Some a →
  (1 ≤ filtersize)%Z →
  ∃ h' out smooth,
    process_image h frame filtersize = Some (h', out) ∧
    median_filter a filtersize = Some smooth ∧
    h' !! out = Some (ndarray_sub a smooth) ∧
    h !! out = None ∧
    h' !! frame = Some a ∧
    (∀ k b, h !! k = Some b → h' !! k = Some b) ∧
    length <$> ndarray_sub a smooth = length <$> a ∧
    shape (ndarray_sub a smooth) = shape a ∧
    (∀ c zero, constant_frame c a → sub c c = zero →
               constant_frame zero (ndarray_sub a smooth)).
Proof.
  intros Ha Hsize.
  destruct (proj2 (median_filter_size a filtersize) Hsize) as [smooth Hsm].
  pose proof (median_filter_lengths _ _ _ Hsm) as Hlen.
  pose proof (lookup_lt_Some _ _ _ Ha) as Hlt.
  exists (h ++ [smooth] ++ [ndarray_sub a smooth]), (S (length h)), smooth.
  assert (Hkeep : ∀ k b, h !! k = Some b →
            (h ++ [smooth] ++ [ndarray_sub a smooth]) !! k = Some b).
  { intros k b Hk. by apply lookup_app_l_Some. }
  split; [|split; [done|split; [|split; [|split; [|split; [|split; [|split]]]]]]].
  - unfold Image.process_image, ndimage_median_filter, ndarray_minus, alloc.
    rewrite Ha. simpl. rewrite Hsm. simpl.
    rewrite (lookup_app_l h [smooth] frame) by done. rewrite Ha. simpl.
    rewrite (lookup_app_r h [smooth] (length h)) by done.
    rewrite Nat.sub_diag. simpl.
    rewrite length_app, <- app_assoc. simpl. do 2 f_equal. lia.
  - rewrite lookup_app_r by lia.
    replace (S (length h) - length h) with 1 by lia. done.
  - apply lookup_ge_None. lia.
  - by apply Hkeep.
  - exact Hkeep.
  - by apply ndarray_sub_lengths.
  - apply shape_lengths. by apply ndarray_sub_lengths.
  - intros c zero Hc Hz.
    rewrite (median_filter_constant c a filtersize Hsize Hc) in Hsm.
    injection Hsm as <-. rewrite <- Hz. by apply ndarray_sub_constant.
Qed.

End ImageFacts.

(** ** The worker pool *)

Section PoolFacts.
Import WorkerPool.
Context {Task V E : Type} (call : Task → Result V E).

Local Abbreviation Pool := (Pool Task V E).
Local Abbreviation event := (event Task).
Local Abbreviation exec := (exec call).
Local Abbreviation step := (step call).
Local Abbreviation finish := (finish call).
Local Abbreviation pool_inv := (pool_inv call).

(** Membership in lists built by [++] and [::], spelled out. *)
Ltac list_elems :=
  repeat (rewrite elem_of_app || rewrite elem_of_cons || rewrite elem_of_nil).

(** *** Lists of worker slots and of queued jobs *)

Lemma running_start (ws : list (option handle)) (w : nat) (h : handle) :
  ws !! w = Some None → omap id (<[w := Some h]> ws) ≡ₚ h :: omap id ws.
Proof.
  revert w. induction ws as [|[x|] ws IH]; intros [|w] Hw; simplify_eq/=.
  - rewrite (IH w Hw). apply perm_swap.
  - done.
  - by apply IH.
Qed.

Lemma running_finish (ws : list (option handle)) (w : nat) (h : handle) :
  ws !! w = Some (Some h) → omap id ws ≡ₚ h :: omap id (<[w := None]> ws).
Proof.
  revert w. induction ws as [|[x|] ws IH]; intros [|w] Hw; simplify_eq/=.
  - done.
  - rewrite (IH w Hw). apply perm_swap.
  - by apply IH.
Qed.

Lemma running_length (ws : list (option handle)) :
  length (omap id ws) ≤ length ws.
Proof. induction ws as [|[x|] ws IH]; csimpl; lia. Qed.

Lemma running_nil (ws : list (option handle)) (w : nat) :
  omap id ws = [] → w < length ws → ws !! w = Some None.
Proof.
  revert w. induction ws as [|[x|] ws IH]; intros w Hnil Hw; csimpl in *.
  - lia.
  - discriminate.
  - destruct w as [|w]; simpl; [done|]. apply IH; [done|lia].
Qed.

Lemma running_elem (ws : list (option handle)) (h : handle) :
  h ∈ omap id ws ↔ ∃ w, ws !! w = Some (Some h).
Proof.
  rewrite list_elem_of_omap. split.
  - intros (x & Hx & Hid). simpl in Hid. subst x.
    apply list_elem_of_lookup in Hx as [w Hw]. eauto.
  - intros [w Hw]. exists (Some h). split; [|done].
    by eapply list_elem_of_lookup_2.
Qed.

Lemma filter_other (q : list handle) (h : handle) :
  h ∉ q → filter (λ x, x ≠ h) q = q.
Proof.
  induction q as [|x q IH]; intros Hh; [done|].
  apply not_elem_of_cons in Hh as [Hne Hh].
  rewrite filter_cons_True by done. by rewrite IH.
Qed.

Lemma queue_take (q : list handle) (h : handle) :
  NoDup q → h ∈ q → q ≡ₚ h :: filter (λ x, x ≠ h) q.
Proof.
  induction 1 as [|x q Hx Hq IH]; intros Hh.
  - by apply elem_of_nil in Hh.
  - destruct (decide (x = h)) as [->|Hne].
    + rewrite filter_cons_False by (intros Hn; by apply Hn).
      by rewrite filter_other.
    + apply elem_of_cons in Hh as [->|Hh]; [done|].
      rewrite filter_cons_True by done.
      rewrite (IH Hh) at 1. apply perm_swap.
Qed.

Lemma running_replicate (n : nat) : omap id (replicate n (@None handle)) = [].
Proof. induction n as [|n IH]; csimpl; done. Qed.

(** *** Stored results *)

Lemma find_result_elem (h : handle) (rs : list (handle * Result V E)) (r : Result V E) :
  find_result h rs = Some r → (h, r) ∈ rs.
Proof.
  induction rs as [|[h' r'] rs IH]; simpl; [done|].
  destruct (decide (h' = h)) as [->|Hne].
  - intros [= ->]. apply elem_of_cons. by left.
  - intros Hf. apply elem_of_cons. right. by apply IH.
Qed.

Lemma find_result_Some (h : handle) (rs : list (handle * Result V E)) :
  is_Some (find_result h rs) ↔ h ∈ rs.*1.
Proof.
  induction rs as [|[h' r'] rs IH]; csimpl.
  - split.
    + intros [x Hx]. discriminate.
    + intros H. by apply elem_of_nil in H.
  - destruct (decide (h' = h)) as [->|Hne].
    + split; [intros _; apply elem_of_cons; by left | intros _; eauto].
    + rewrite IH, elem_of_cons. split; [by right|].
      intros [?|?]; [congruence|done].
Qed.

Lemma find_result_None (h : handle) (rs : list (handle * Result V E)) :
  find_result h rs = None ↔ h ∉ rs.*1.
Proof.
  destruct (find_result h rs) as [r|] eqn:Hf.
  - split; [done|]. intros Hn. exfalso. apply Hn.
    apply find_result_Some. rewrite Hf. eauto.
  - split; [|done]. intros _ Hin.
    apply find_result_Some in Hin as [x Hx]. congruence.
Qed.

Lemma results_for_length (h : handle) (rs : list (handle * Result V E)) :
  NoDup rs.*1 →
  length (filter (λ x, x.1 = h) rs) = if decide (h ∈ rs.*1) then 1 else 0.
Proof.
  induction rs as [|[h' r'] rs IH]; csimpl; intros Hnd.
  - destruct (decide (h ∈ [])) as [Hin|]; [by apply elem_of_nil in Hin|done].
  - apply NoDup_cons in Hnd as [Hh' Hnd]. specialize (IH Hnd).
    destruct (decide (h' = h)) as [->|Hne].
    + rewrite filter_cons_True by done. simpl. rewrite IH.
      rewrite decide_False by done.
      rewrite decide_True; [done|]. apply elem_of_cons. by left.
    + rewrite filter_cons_False by done. rewrite IH.
      destruct (decide (h ∈ rs.*1)) as [Hin|Hin].
      * rewrite decide_True; [done|]. apply elem_of_cons. by right.
      * rewrite decide_False; [done|]. rewrite elem_of_cons.
        intros [?|?]; [congruence|done].
Qed.

(** *** Every event keeps the invariant *)

Lemma pool_inv_new (n : nat) (p0 : Pool) :
  Pool_new n = Some p0 →
  pool_inv p0 ∧ capacity p0 = n ∧ phase p0 = Open ∧ jobs p0 = [] ∧
  queue p0 = [] ∧ running p0 = [] ∧ results p0 = [] ∧ abandoned p0 = [].
Proof.
  unfold Pool_new. destruct (decide (n = 0)) as [|Hn]; [done|].
  intros [= <-]. unfold running. simpl.
  rewrite running_replicate. split; [|done].
  constructor; simpl; try done.
  - lia.
  - apply length_replicate.
  - unfold owners, running. simpl. by rewrite running_replicate.
  - intros h r Hr. by apply elem_of_nil in Hr.
Qed.

Lemma owners_bound (p : Pool) (h : handle) :
  pool_inv p → h ∈ owners p ↔ h < length (jobs p).
Proof.
  intros Hinv. rewrite (inv_owners _ _ Hinv), elem_of_seq. lia.
Qed.

Lemma owners_NoDup (p : Pool) : pool_inv p → NoDup (owners p).
Proof. intros Hinv. rewrite (inv_owners _ _ Hinv). apply NoDup_seq. Qed.

Lemma pool_inv_apply_async (t : Task) (p : Pool) :
  pool_inv p → pool_inv (apply_async t p).1.
Proof.
  intros Hinv. unfold apply_async.
  destruct p as [cap ph js q ws rs ab].
  destruct Hinv as [Hcap Hws Hown Hres Hkept Hdr]. simpl in *.
  destruct ph; simpl; try (by constructor).
  constructor; simpl; try done.
  - unfold owners, running in *. simpl in *.
    rewrite length_app. simpl. rewrite Nat.add_1_r, seq_S. simpl.
    rewrite <- Hown. solve_Permutation.
  - intros h r Hr. destruct (Hres h r Hr) as (t' & Ht' & ->).
    exists t'. split; [|done]. by apply lookup_app_l_Some.
  - intros [?|?]; done.
Qed.

Lemma pool_inv_start (w : nat) (h : handle) (p p' : Pool) :
  pool_inv p → start w h p = Some p' → pool_inv p'.
Proof.
  intros Hinv. pose proof (owners_NoDup p Hinv) as Hnd. unfold start.
  destruct p as [cap ph js q ws rs ab].
  destruct Hinv as [Hcap Hws Hown Hres Hkept Hdr]. simpl in *.
  destruct (ws !! w) as [[?|]|] eqn:Hw; try done.
  destruct (decide (h ∈ q)) as [Hq|]; [|done].
  intros [= <-]. constructor; simpl; try done.
  - by rewrite length_insert.
  - unfold owners, running in *. simpl in *.
    apply NoDup_app in Hnd as (Hndq & _ & _).
    rewrite <- Hown, (running_start ws w h Hw).
    pose proof (queue_take q h Hndq Hq) as Hq'.
    set (q' := filter _ q) in *. rewrite Hq'. solve_Permutation.
  - intros Hph. rewrite (Hdr Hph). done.
Qed.

Lemma pool_inv_finish (w : nat) (p p' : Pool) :
  pool_inv p → finish w p = Some p' → pool_inv p'.
Proof.
  intros Hinv. unfold WorkerPool.finish.
  destruct p as [cap ph js q ws rs ab].
  destruct Hinv as [Hcap Hws Hown Hres Hkept Hdr]. simpl in *.
  destruct (ws !! w) as [[h|]|] eqn:Hw; try done.
  destruct (js !! h) as [t|] eqn:Ht; [|done]. simpl.
  intros [= <-]. constructor; simpl; try done.
  - by rewrite length_insert.
  - unfold owners, running in *. simpl in *.
    rewrite <- Hown, (running_finish ws w h Hw), fmap_app. simpl.
    solve_Permutation.
  - intros h' r Hr. apply elem_of_app in Hr as [Hr|Hr]; [by apply Hres|].
    apply list_elem_of_singleton in Hr as [= -> ->]. eauto.
Qed.

Lemma pool_inv_shutdown (wait : bool) (p p' : Pool) :
  pool_inv p → shutdown wait p = Some p' → pool_inv p'.
Proof.
  intros Hinv. unfold shutdown.
  destruct p as [cap ph js q ws rs ab].
  destruct Hinv as [Hcap Hws Hown Hres Hkept Hdr]. simpl in *.
  destruct ph; try done. intros [= <-].
  destruct wait; constructor; simpl; try done.
  - intros _. by apply Hkept; left.
  - intros [?|?]; done.
  - unfold owners, running in *. simpl in *.
    rewrite <- Hown. rewrite (Hkept (or_introl eq_refl)). simpl.
    solve_Permutation.
  - intros [?|?]; done.
Qed.

Lemma pool_inv_shutdown_return (p p' : Pool) :
  pool_inv p → shutdown_return p = Some p' → pool_inv p'.
Proof.
  intros Hinv. unfold shutdown_return.
  destruct p as [cap ph js q ws rs ab].
  destruct Hinv as [Hcap Hws Hown Hres Hkept Hdr]. simpl in *.
  destruct ph as [|[|]|]; try done.
  - destruct (decide _) as [[Hq Hr]|]; [|done]. intros [= <-].
    constructor; simpl; try done. intros [?|?]; done.
  - intros [= <-]. constructor; simpl; try done.
    + intros [?|?]; done.
    + intros _. apply Hdr. by left.
Qed.

Lemma pool_inv_step (e : event) (p p' : Pool) :
  pool_inv p → step e p = Some p' → pool_inv p'.
Proof.
  destruct e as [t|w h|w|wait|]; simpl; intros Hinv Hstep.
  - injection Hstep as <-. by apply pool_inv_apply_async.
  - by eapply pool_inv_start.
  - by eapply pool_inv_finish.
  - by eapply pool_inv_shutdown.
  - by eapply pool_inv_shutdown_return.
Qed.

Lemma pool_inv_exec (tr : list event) (p p' : Pool) :
  pool_inv p → exec tr p = Some p' → pool_inv p'.
Proof.
  revert p. induction tr as [|e tr IH]; simpl; intros p Hinv Hex.
  - by injection Hex as <-.
  - destruct (step e p) as [p1|] eqn:Hstep; [|done]. simpl in Hex.
    eapply IH; [|done]. by eapply pool_inv_step.
Qed.

(** *** Counting starts along a trace *)

Lemma starts_cons (h : handle) (e : event) (tr : list event) :
  starts h (e :: tr) = (if is_start h e then 1 else 0) + starts h tr.
Proof.
  unfold starts. rewrite filter_cons.
  destruct (is_start h e); simpl; done.
Qed.

Lemma starts_app (h : handle) (tr1 tr2 : list event) :
  starts h (tr1 ++ tr2) = starts h tr1 + starts h tr2.
Proof. unfold starts. by rewrite filter_app, length_app. Qed.

Lemma started_eq (h : handle) (p p' : Pool) :
  (h ∈ running p ++ (results p).*1 ↔ h ∈ running p' ++ (results p').*1) →
  started h p = started h p'.
Proof.
  intros Hiff. unfold started.
  destruct (decide (h ∈ running p ++ (results p).*1)) as [Hin|Hin];
    destruct (decide (h ∈ running p' ++ (results p').*1)) as [Hin'|Hin'];
    try done; exfalso; tauto.
Qed.

Lemma started_1 (h : handle) (p : Pool) :
  h ∈ running p ++ (results p).*1 → started h p = 1.
Proof. intros Hin. unfold started. by rewrite decide_True. Qed.

Lemma started_0 (h : handle) (p : Pool) :
  h ∉ running p ++ (results p).*1 → started h p = 0.
Proof. intros Hin. unfold started. by rewrite decide_False. Qed.

Lemma starts_step (h : handle) (e : event) (p p' : Pool) :
  pool_inv p → step e p = Some p' →
  (if is_start h e then 1 else 0) + started h p = started h p'.
Proof.
  intros Hinv Hstep. pose proof (owners_NoDup p Hinv) as Hnd.
  destruct e as [t|w h'|w|wait|]; simpl in *.
  - injection Hstep as <-. apply started_eq.
    unfold apply_async. destruct (phase p); done.
  - unfold start in Hstep.
    destruct (workers p !! w) as [[?|]|] eqn:Hw; try done.
    destruct (decide (h' ∈ queue p)) as [Hq|]; [|done].
    injection Hstep as <-.
    assert (Hrun : ∀ x, x ∈ omap id (<[w:=Some h']> (workers p)) ++ (results p).*1
                     ↔ x = h' ∨ x ∈ running p ++ (results p).*1).
    { intros x. unfold running. rewrite (running_start _ w h' Hw).
      rewrite !elem_of_app, elem_of_cons. tauto. }
    destruct (bool_decide_reflect (h' = h)) as [->|Hne].
    + rewrite (started_0 h p), started_1; [done| |].
      * unfold running at 1. simpl. apply Hrun. by left.
      * unfold owners in Hnd. apply NoDup_app in Hnd as (_ & Hdisj & _).
        intros Hin. apply (Hdisj h Hq).
        rewrite !elem_of_app in *. tauto.
    + simpl. apply started_eq. unfold running at 2. simpl.
      rewrite Hrun. split; [tauto|]. intros [?|?]; [congruence|done].
  - unfold WorkerPool.finish in Hstep.
    destruct (workers p !! w) as [[h'|]|] eqn:Hw; try done.
    destruct (jobs p !! h') as [t|]; [|done]. injection Hstep as <-.
    apply started_eq. unfold running. simpl.
    rewrite (running_finish _ w h' Hw), fmap_app. simpl.
    list_elems. tauto.
  - unfold shutdown in Hstep. destruct (phase p); try done.
    injection Hstep as <-. apply started_eq. by destruct wait.
  - unfold shutdown_return in Hstep. apply started_eq.
    destruct (phase p) as [|[|]|]; try done.
    + destruct (decide _); [|done]. by injection Hstep as <-.
    + by injection Hstep as <-.
Qed.

Lemma starts_exec (h : handle) (tr : list event) (p p' : Pool) :
  pool_inv p → exec tr p = Some p' → starts h tr + started h p = started h p'.
Proof.
  revert p. induction tr as [|e tr IH]; simpl; intros p Hinv Hex.
  - by injection Hex as <-.
  - destruct (step e p) as [p1|] eqn:Hstep; [|done]. simpl in Hex.
    rewrite starts_cons.
    rewrite <- (IH p1 (pool_inv_step _ _ _ Hinv Hstep) Hex).
    rewrite <- (starts_step h e p p1 Hinv Hstep). lia.
Qed.

(** *** The life cycle *)

Lemma phase_step (e : event) (p p' : Pool) :
  step e p = Some p' →
  (phase p' ≠ Open ↔ phase p ≠ Open ∨ ∃ wait, e = Shutdown wait).
Proof.
  destruct e as [t|w h|w|wait|]; simpl.
  - intros [= <-]. unfold apply_async.
    destruct (phase p) eqn:Hph; simpl; rewrite ?Hph; split; try tauto;
      intros [?|[? ?]]; done.
  - unfold start. destruct (workers p !! w) as [[?|]|]; try done.
    destruct (decide _); [|done]. intros [= <-]. simpl.
    split; [tauto|]. intros [?|[? ?]]; done.
  - unfold WorkerPool.finish. destruct (workers p !! w) as [[?|]|]; try done.
    destruct (jobs p !! _); [|done]. intros [= <-]. simpl.
    split; [tauto|]. intros [?|[? ?]]; done.
  - unfold shutdown. destruct (phase p); try done. intros [= <-].
    split; [eauto|]. intros _. by destruct wait.
  - unfold shutdown_return. destruct (phase p) as [|[|]|]; try done.
    + destruct (decide _); [|done]. intros [= <-]. simpl. split; [by left|done].
    + intros [= <-]. simpl. split; [by left|done].
Qed.

Lemma phase_exec (tr : list event) (p p' : Pool) :
  exec tr p = Some p' →
  (phase p' ≠ Open ↔ phase p ≠ Open ∨ ∃ wait, Shutdown wait ∈ tr).
Proof.
  revert p. induction tr as [|e tr IH]; simpl; intros p Hex.
  - injection Hex as <-. split; [tauto|].
    intros [?|[? Hin]]; [done|]. by apply elem_of_nil in Hin.
  - destruct (step e p) as [p1|] eqn:Hstep; [|done]. simpl in Hex.
    rewrite (IH p1 Hex), (phase_step e p p1 Hstep). split.
    + intros [[?|[wait ->]]|[wait Hin]].
      * by left.
      * right. exists wait. apply elem_of_cons. by left.
      * right. exists wait. apply elem_of_cons. by right.
    + intros [?|[wait Hin]]; [by left; left|].
      apply elem_of_cons in Hin as [<-|Hin]; [left; right; eauto|right; eauto].
Qed.

(** *** Workers always have a next move, and only finitely many *)

Lemma pool_progress (p : Pool) :
  pool_inv p → ¬ idle p →
  (∃ w, is_Some (finish w p)) ∨ (∃ w h, is_Some (start w h p)).
Proof.
  intros Hinv Hbusy.
  destruct (running p) as [|h r] eqn:Hrun.
  - right. destruct (queue p) as [|h q] eqn:Hq.
    { exfalso. apply Hbusy. split; done. }
    exists 0, h. unfold start.
    rewrite (running_nil (workers p) 0 Hrun).
    + rewrite decide_True; [eauto|]. rewrite Hq. apply elem_of_cons. by left.
    + rewrite (inv_workers _ _ Hinv). apply (inv_capacity _ _ Hinv).
  - left.
    assert (Hh : h ∈ running p) by (rewrite Hrun; apply elem_of_cons; by left).
    pose proof Hh as Hh'.
    unfold running in Hh. apply running_elem in Hh as [w Hw].
    exists w. unfold WorkerPool.finish. rewrite Hw.
    assert (Hlt : h < length (jobs p)).
    { apply (owners_bound p h Hinv). unfold owners.
      rewrite !elem_of_app. tauto. }
    destruct (lookup_lt_is_Some_2 _ _ Hlt) as [t ->]. simpl. eauto.
Qed.

Lemma pool_work_start (w : nat) (h : handle) (p p' : Pool) :
  pool_inv p → start w h p = Some p' → S (pool_work p') = pool_work p.
Proof.
  intros Hinv. pose proof (owners_NoDup p Hinv) as Hnd. unfold start.
  destruct (workers p !! w) as [[?|]|] eqn:Hw; try done.
  destruct (decide (h ∈ queue p)) as [Hq|]; [|done]. intros [= <-].
  unfold pool_work, active_count, running. simpl.
  apply NoDup_app in Hnd as (Hndq & _ & _).
  rewrite (running_start _ w h Hw). simpl.
  pose proof (queue_take _ h Hndq Hq) as Hq'.
  apply Permutation_length in Hq'. simpl in Hq'. lia.
Qed.

Lemma pool_work_finish (w : nat) (p p' : Pool) :
  finish w p = Some p' → S (pool_work p') = pool_work p.
Proof.
  unfold WorkerPool.finish.
  destruct (workers p !! w) as [[h|]|] eqn:Hw; try done.
  destruct (jobs p !! h) as [t|]; [|done]. intros [= <-].
  unfold pool_work, active_count, running. simpl.
  pose proof (running_finish _ w h Hw) as Hr.
  apply Permutation_length in Hr. simpl in Hr. lia.
Qed.

(** *** In-flight and abandoned jobs *)

Lemma running_step (e : event) (p p' : Pool) (h : handle) :
  step e p = Some p' → h ∈ running p →
  h ∈ running p' ∨ is_Some (result_of h p').
Proof.
  destruct e as [t|w h'|w|wait|]; simpl; intros Hstep Hh.
  - injection Hstep as <-. left. unfold apply_async.
    destruct (phase p); done.
  - unfold start in Hstep.
    destruct (workers p !! w) as [[?|]|] eqn:Hw; try done.
    destruct (decide _); [|done]. injection Hstep as <-. left.
    unfold running in *. simpl. rewrite (running_start _ w h' Hw).
    apply elem_of_cons. by right.
  - unfold WorkerPool.finish in Hstep.
    destruct (workers p !! w) as [[h'|]|] eqn:Hw; try done.
    destruct (jobs p !! h') as [t|]; [|done]. injection Hstep as <-.
    unfold running, result_of in *. simpl.
    rewrite (running_finish _ w h' Hw) in Hh.
    apply elem_of_cons in Hh as [->|Hh]; [right|by left].
    apply find_result_Some. rewrite fmap_app, elem_of_app. right.
    simpl. apply list_elem_of_singleton. done.
  - unfold shutdown in Hstep. destruct (phase p); try done.
    injection Hstep as <-. left. by destruct wait.
  - unfold shutdown_return in Hstep. left.
    destruct (phase p) as [|[|]|]; try done.
    + destruct (decide _); [|done]. by injection Hstep as <-.
    + by injection Hstep as <-.
Qed.

Lemma abandoned_step (e : event) (p p' : Pool) (h : handle) :
  step e p = Some p' → h ∈ abandoned p → h ∈ abandoned p'.
Proof.
  destruct e as [t|w h'|w|wait|]; simpl; intros Hstep Hh.
  - injection Hstep as <-. unfold apply_async. destruct (phase p); done.
  - unfold start in Hstep.
    destruct (workers p !! w) as [[?|]|]; try done.
    destruct (decide _); [|done]. by injection Hstep as <-.
  - unfold WorkerPool.finish in Hstep.
    destruct (workers p !! w) as [[h'|]|]; try done.
    destruct (jobs p !! h') as [t|]; [|done]. by injection Hstep as <-.
  - unfold shutdown in Hstep. destruct (phase p); try done.
    injection Hstep as <-. destruct wait; simpl; [done|].
    apply elem_of_app. by left.
  - unfold shutdown_return in Hstep.
    destruct (phase p) as [|[|]|]; try done.
    + destruct (decide _); [|done]. by injection Hstep as <-.
    + by injection Hstep as <-.
Qed.

Lemma abandoned_exec (tr : list event) (p p' : Pool) (h : handle) :
  exec tr p = Some p' → h ∈ abandoned p → h ∈ abandoned p'.
Proof.
  revert p. induction tr as [|e tr IH]; simpl; intros p Hex Hh.
  - by injection Hex as <-.
  - destruct (step e p) as [p1|] eqn:Hstep; [|done]. simpl in Hex.
    eapply IH; [done|]. by eapply abandoned_step.
Qed.

(** An abandoned job is in no queue, on no worker and has no Result. *)
Lemma abandoned_alone (p : Pool) (h : handle) :
  pool_inv p → h ∈ abandoned p →
  (h ∉ queue p) ∧ (h ∉ running p) ∧ result_of h p = None ∧ results_for h p = [].
Proof.
  intros Hinv Hh. pose proof (owners_NoDup p Hinv) as Hnd.
  unfold owners in Hnd.
  apply NoDup_app in Hnd as (_ & Hq & Hnd).
  apply NoDup_app in Hnd as (_ & Hr & Hnd).
  apply NoDup_app in Hnd as (Hndf & Hf & _).
  assert (Hnf : h ∉ (results p).*1) by (intros Hin; by apply (Hf h)).
  split; [|split; [|split]].
  - intros Hin. apply (Hq h Hin). rewrite !elem_of_app. tauto.
  - intros Hin. apply (Hr h Hin). rewrite !elem_of_app. tauto.
  - by apply find_result_None.
  - unfold results_for.
    pose proof (results_for_length h (results p) Hndf) as Hlen.
    rewrite decide_False in Hlen by done.
    apply nil_length_inv in Hlen. by rewrite Hlen.
Qed.

(** A job that is neither waiting, running nor abandoned has its one
    Result, the value of its task. *)
Lemma settled_result (p : Pool) (h : handle) :
  pool_inv p → h < length (jobs p) →
  h ∉ queue p → h ∉ running p → h ∉ abandoned p →
  length (results_for h p) = 1 ∧
  ∃ t, jobs p !! h = Some t ∧ result_of h p = Some (call t).
Proof.
  intros Hinv Hlt Hq Hr Ha. pose proof (owners_NoDup p Hinv) as Hnd.
  apply (owners_bound p h Hinv) in Hlt. unfold owners in Hlt, Hnd.
  assert (Hf : h ∈ (results p).*1) by (revert Hlt; list_elems; tauto).
  apply NoDup_app in Hnd as (_ & _ & Hnd).
  apply NoDup_app in Hnd as (_ & _ & Hnd).
  apply NoDup_app in Hnd as (Hndf & _ & _).
  split.
  - unfold results_for. rewrite length_fmap.
    rewrite (results_for_length h _ Hndf). by rewrite decide_True.
  - destruct (proj2 (find_result_Some h (results p)) Hf) as [r Hfind].
    destruct (inv_results _ _ Hinv h r (find_result_elem _ _ _ Hfind))
      as (t & Ht & ->).
    exists t. split; [done|]. exact Hfind.
Qed.

Lemma results_for_le (p : Pool) (h : handle) :
  pool_inv p → length (results_for h p) ≤ 1.
Proof.
  intros Hinv. pose proof (owners_NoDup p Hinv) as Hnd. unfold owners in Hnd.
  apply NoDup_app in Hnd as (_ & _ & Hnd).
  apply NoDup_app in Hnd as (_ & _ & Hnd).
  apply NoDup_app in Hnd as (Hndf & _ & _).
  unfold results_for. rewrite length_fmap, (results_for_length h _ Hndf).
  destruct (decide _); lia.
Qed.

Lemma capacity_step (e : event) (p p' : Pool) :
  step e p = Some p' → capacity p' = capacity p.
Proof.
  destruct e as [t|w h|w|wait|]; simpl.
  - intros [= <-]. unfold apply_async. by destruct (phase p).
  - unfold start. destruct (workers p !! w) as [[?|]|]; try done.
    destruct (decide _); [|done]. by intros [= <-].
  - unfold WorkerPool.finish. destruct (workers p !! w) as [[?|]|]; try done.
    destruct (jobs p !! _); [|done]. by intros [= <-].
  - unfold shutdown. destruct (phase p); try done. intros [= <-].
    by destruct wait.
  - unfold shutdown_return. destruct (phase p) as [|[|]|]; try done.
    + destruct (decide _); [|done]. by intros [= <-].
    + by intros [= <-].
Qed.

Lemma capacity_exec (tr : list event) (p p' : Pool) :
  exec tr p = Some p' → capacity p' = capacity p.
Proof.
  revert p. induction tr as [|e tr IH]; simpl; intros p Hex.
  - by injection Hex as <-.
  - destruct (step e p) as [p1|] eqn:Hstep; [|done]. simpl in Hex.
    rewrite (IH p1 Hex). by eapply capacity_step.
Qed.

Lemma active_count_le (p : Pool) : pool_inv p → active_count p ≤ capacity p.
Proof.
  intros Hinv. rewrite <- (inv_workers _ _ Hinv).
  apply running_length.
Qed.

Lemma exec_app (tr1 tr2 : list event) (p : Pool) :
  exec (tr1 ++ tr2) p = exec tr1 p ≫= exec tr2.
Proof.
  revert p. induction tr1 as [|e tr1 IH]; simpl; intros p; [done|].
  destruct (step e p) as [p1|]; simpl; [apply IH|done].
Qed.

(** Left to themselves the workers empty the queue, in exactly
    [pool_work] events, and abandon nothing. *)
Lemma workers_step (e : event) (p p' : Pool) :
  pool_inv p → worker_event e → step e p = Some p' →
  S (pool_work p') = pool_work p ∧ abandoned p' = abandoned p ∧
  phase p' = phase p ∧ jobs p' = jobs p.
Proof.
  intros Hinv. destruct e as [t|w h|w|wait|]; simpl; try done; intros _ Hstep.
  - split; [by eapply pool_work_start|].
    unfold start in Hstep. destruct (workers p !! w) as [[?|]|]; try done.
    destruct (decide _); [|done]. by injection Hstep as <-.
  - split; [by eapply pool_work_finish|].
    unfold WorkerPool.finish in Hstep.
    destruct (workers p !! w) as [[?|]|]; try done.
    destruct (jobs p !! _); [|done]. by injection Hstep as <-.
Qed.

Lemma workers_exec (tr : list event) (p p' : Pool) :
  pool_inv p → Forall worker_event tr → exec tr p = Some p' →
  length tr + pool_work p' = pool_work p.
Proof.
  revert p. induction tr as [|e tr IH]; simpl; intros p Hinv Hw Hex.
  - by injection Hex as <-.
  - apply Forall_cons in Hw as [He Hw].
    destruct (step e p) as [p1|] eqn:Hstep; [|done]. simpl in Hex.
    destruct (workers_step e p p1 Hinv He Hstep) as (Hwork & _).
    pose proof (IH p1 (pool_inv_step _ _ _ Hinv Hstep) Hw Hex). lia.
Qed.

Lemma workers_drain (p : Pool) :
  pool_inv p →
  ∃ tr p', Forall worker_event tr ∧ exec tr p = Some p' ∧ idle p' ∧
           abandoned p' = abandoned p ∧ phase p' = phase p ∧ jobs p' = jobs p.
Proof.
  remember (pool_work p) as n eqn:Hn. revert p Hn.
  induction (lt_wf n) as [n _ IH]. intros p -> Hinv.
  destruct (decide (queue p = [] ∧ running p = [])) as [Hidle|Hbusy].
  { exists [], p. split; [constructor|]. split; [done|]. by split. }
  assert (∃ e p1, worker_event e ∧ step e p = Some p1) as (e & p1 & He & Hstep).
  { destruct (pool_progress p Hinv Hbusy) as [[w [p1 Hp1]]|(w & h & [p1 Hp1])].
    - by exists (Finish w), p1.
    - by exists (Start w h), p1. }
  destruct (workers_step e p p1 Hinv He Hstep) as (Hwork & Hab & Hph & Hj).
  destruct (IH (pool_work p1) ltac:(lia) p1 eq_refl
               (pool_inv_step _ _ _ Hinv Hstep))
    as (tr & p' & Hw & Hex & Hidle & Hab' & Hph' & Hj').
  exists (e :: tr), p'. simpl. rewrite Hstep. simpl.
  split; [by constructor|]. split; [done|]. split; [done|].
  repeat split; congruence.
Qed.

(** *** From a fresh pool *)

Lemma reach_inv (n : nat) (p0 p : Pool) (tr : list event) :
  Pool_new n = Some p0 → exec tr p0 = Some p → pool_inv p.
Proof.
  intros Hnew Hex. apply (pool_inv_exec tr p0); [|done].
  by destruct (pool_inv_new n p0 Hnew).
Qed.

Lemma reach_starts (n : nat) (p0 p : Pool) (tr : list event) (h : handle) :
  Pool_new n = Some p0 → exec tr p0 = Some p → starts h tr = started h p.
Proof.
  intros Hnew Hex.
  destruct (pool_inv_new n p0 Hnew) as (Hinv & _ & _ & _ & _ & Hr & Hres & _).
  rewrite <- (starts_exec h tr p0 p Hinv Hex).
  rewrite (started_0 h p0); [lia|].
  rewrite Hr, Hres. apply not_elem_of_nil.
Qed.

Lemma started_le (h : handle) (p : Pool) : started h p ≤ 1.
Proof. unfold started. destruct (decide _); lia. Qed.

Lemma results_for_started (h : handle) (p : Pool) :
  pool_inv p → length (results_for h p) = 1 → started h p = 1.
Proof.
  intros Hinv Hlen. pose proof (owners_NoDup p Hinv) as Hnd.
  unfold owners in Hnd.
  apply NoDup_app in Hnd as (_ & _ & Hnd).
  apply NoDup_app in Hnd as (_ & _ & Hnd).
  apply NoDup_app in Hnd as (Hndf & _ & _).
  unfold results_for in Hlen.
  rewrite length_fmap, (results_for_length h _ Hndf) in Hlen.
  destruct (decide (h ∈ (results p).*1)) as [Hin|]; [|done].
  apply started_1. apply elem_of_app. by right.
Qed.

Lemma abandoned_forever (n : nat) (p0 p p' : Pool) (tr tr' : list event) (h : handle) :
  Pool_new n = Some p0 → exec tr p0 = Some p → exec tr' p = Some p' →
  h ∈ abandoned p →
  starts h (tr ++ tr') = 0 ∧ result_of h p' = None ∧
  results_for h p' = [] ∧ h ∈ abandoned p'.
Proof.
  intros Hnew Hex Hex' Hab.
  assert (Hreach : exec (tr ++ tr') p0 = Some p').
  { by rewrite exec_app, Hex. }
  pose proof (reach_inv n p0 p' _ Hnew Hreach) as Hinv'.
  pose proof (abandoned_exec tr' p p' h Hex' Hab) as Hab'.
  destruct (abandoned_alone p' h Hinv' Hab') as (_ & Hrun & Hres & Hfor).
  split; [|done].
  rewrite (reach_starts n p0 p' _ h Hnew Hreach). apply started_0.
  rewrite elem_of_app. intros [?|Hin]; [done|].
  apply find_result_None in Hres. done.
Qed.

(** C3, as it holds.  In every state a pool can reach, a task it accepted
    has been started at most once and has at most one Result, and a Result
    only after its one start.  Unless it was abandoned in the queue by
    [shutdown(wait=false)], it has exactly one Result as soon as the
    workers are idle, and the workers get there in [pool_work] events of
    their own.  An abandoned task is never started and never has a
    Result. *)
Theorem task_result_at_most_once
    (n : nat) (p0 p : Pool) (tr : list event) (h : handle) :
  Pool_new n = Some p0 → exec tr p0 = Some p → h < length (jobs p) →
  starts h tr ≤ 1 ∧ length (results_for h p) ≤ 1 ∧
  (length (results_for h p) = 1 → starts h tr = 1) ∧
  (h ∉ abandoned p →
     (idle p → length (results_for h p) = 1 ∧ starts h tr = 1) ∧
     ∃ tr' p', Forall worker_event tr' ∧ exec tr' p = Some p' ∧
               length tr' = pool_work p ∧ idle p' ∧
               length (results_for h p') = 1 ∧ starts h (tr ++ tr') = 1) ∧
  (h ∈ abandoned p →
     ∀ tr' p', exec tr' p = Some p' →
       results_for h p' = [] ∧ starts h (tr ++ tr') = 0).
Proof.
  intros Hnew Hex Hlt.
  pose proof (reach_inv n p0 p tr Hnew Hex) as Hinv.
  pose proof (reach_starts n p0 p tr h Hnew Hex) as Hst.
  assert (Hidle : ∀ q tq, exec tq p0 = Some q → jobs q = jobs p →
            abandoned q = abandoned p → h ∉ abandoned p → idle q →
            length (results_for h q) = 1 ∧ starts h tq = 1).
  { intros q tq Hq Hj Ha Hna [Hqq Hqr].
    pose proof (reach_inv n p0 q tq Hnew Hq) as Hinvq.
    destruct (settled_result q h Hinvq) as (Hlen & _).
    - by rewrite Hj.
    - rewrite Hqq. apply not_elem_of_nil.
    - rewrite Hqr. apply not_elem_of_nil.
    - by rewrite Ha.
    - split; [done|]. rewrite (reach_starts n p0 q tq h Hnew Hq).
      by apply results_for_started. }
  split; [rewrite Hst; apply started_le|].
  split; [by apply results_for_le|].
  split; [intros Hlen; rewrite Hst; by apply results_for_started|].
  split.
  - intros Hna. split; [by apply (Hidle p tr)|].
    destruct (workers_drain p Hinv) as (tr' & p' & Hw & Hex' & Hi & Ha & _ & Hj).
    exists tr', p'. split; [done|]. split; [done|].
    pose proof (workers_exec tr' p p' Hinv Hw Hex') as Hwork.
    assert (pool_work p' = 0) as Hzero.
    { destruct Hi as [Hq Hr]. unfold pool_work, active_count.
      by rewrite Hq, Hr. }
    split; [lia|]. split; [done|].
    apply Hidle; try done. by rewrite exec_app, Hex.
  - intros Hab tr' p' Hex'.
    destruct (abandoned_forever n p0 p p' tr tr' h Hnew Hex Hex' Hab)
      as (? & _ & ? & _).
    done.
Qed.

(** C5.  In every state a pool can reach: a [shutdown(wait=true)] under
    way cannot return while a job is queued or running, when it returns
    every accepted task has its Result, and the workers always bring it to
    return; [shutdown(wait=false)] on an open pool returns at once, with
    the jobs that were queued abandoned and the workers untouched; an
    abandoned job is never started and never has a Result; and no event
    takes a running job off its worker other than its completion, which is
    always possible. *)
Theorem shutdown_waits_or_abandons (n : nat) (p0 p : Pool) (tr : list event) :
  Pool_new n = Some p0 → exec tr p0 = Some p →
  (phase p = Closing true →
     (¬ idle p → shutdown_return p = None) ∧
     (∀ p', shutdown_return p = Some p' →
        ∀ h t, jobs p' !! h = Some t → result_of h p' = Some (call t)) ∧
     (∃ tr' p1 p', Forall worker_event tr' ∧ exec tr' p = Some p1 ∧
                   shutdown_return p1 = Some p')) ∧
  (phase p = Open →
     ∃ p1 p2, shutdown false p = Some p1 ∧ shutdown_return p1 = Some p2 ∧
              abandoned p2 = queue p ∧ queue p2 = [] ∧
              workers p2 = workers p ∧ results p2 = results p) ∧
  (∀ h, h ∈ abandoned p → ∀ tr' p', exec tr' p = Some p' →
        starts h (tr ++ tr') = 0 ∧ result_of h p' = None ∧ h ∈ abandoned p') ∧
  (∀ e p' h, step e p = Some p' → h ∈ running p →
        h ∈ running p' ∨ is_Some (result_of h p')) ∧
  (∀ w h, workers p !! w = Some (Some h) → is_Some (finish w p)).
Proof.
  intros Hnew Hex.
  pose proof (reach_inv n p0 p tr Hnew Hex) as Hinv.
  split; [|split; [|split; [|split]]].
  - intros Hph. split; [|split].
    + intros Hbusy. unfold shutdown_return. rewrite Hph.
      by rewrite decide_False.
    + intros p'. unfold shutdown_return. rewrite Hph.
      destruct (decide _) as [[Hq Hr]|]; [|done]. intros [= <-] h t Ht.
      simpl in *. unfold result_of. simpl.
      destruct (settled_result p h Hinv) as (_ & t' & Ht' & Hres).
      * by eapply lookup_lt_Some.
      * rewrite Hq. apply not_elem_of_nil.
      * rewrite Hr. apply not_elem_of_nil.
      * rewrite (inv_kept _ _ Hinv) by (by right). apply not_elem_of_nil.
      * rewrite Ht in Ht'. by injection Ht' as <-.
    + destruct (workers_drain p Hinv) as (tr' & p1 & Hw & Hex' & Hi & _ & Hph' & _).
      exists tr', p1. unfold shutdown_return. rewrite Hph', Hph.
      rewrite decide_True by done. eauto.
  - intros Hph. unfold shutdown. rewrite Hph. eexists _, _.
    split; [done|]. unfold shutdown_return. simpl.
    split; [done|]. simpl.
    rewrite (inv_kept _ _ Hinv) by (by left). done.
  - intros h Hab tr' p' Hex'.
    destruct (abandoned_forever n p0 p p' tr tr' h Hnew Hex Hex' Hab)
      as (? & ? & _ & ?).
    done.
  - intros e p' h. apply running_step.
  - intros w h Hw. unfold WorkerPool.finish. rewrite Hw.
    assert (Hlt : h < length (jobs p)).
    { apply (owners_bound p h Hinv). unfold owners, running.
      list_elems. right. left. apply running_elem. eauto. }
    destruct (lookup_lt_is_Some_2 _ _ Hlt) as [t ->]. simpl. eauto.
Qed.

(** C6.  For a pool in any state it can reach: a submission is refused
    with [PoolClosed] exactly when a shutdown came before it; the refusal
    is the answer of the call itself, it leaves the pool as it was (the
    task is not queued for later) and the loop that submitted ends there
    with the exception; with no shutdown before it, a submission is
    accepted and its job queued. *)
Theorem submit_refused_after_shutdown
    (n : nat) (p0 p : Pool) (tr : list event) (t : Task) :
  Pool_new n = Some p0 → exec tr p0 = Some p →
  ((apply_async t p).2 = Refused PoolClosed ↔ ∃ wait, Shutdown wait ∈ tr) ∧
  ((∃ wait, Shutdown wait ∈ tr) →
     (apply_async t p).1 = p ∧
     ∀ has_shape todo js,
       dispatch has_shape p (Submitting (V := V) (t :: todo) js)
       = Some (p, Raised [] PoolClosed)) ∧
  ((¬ ∃ wait, Shutdown wait ∈ tr) →
     (apply_async t p).2 = Handle (length (jobs p)) ∧
     jobs (apply_async t p).1 = jobs p ++ [t] ∧
     queue (apply_async t p).1 = queue p ++ [length (jobs p)]).
Proof.
  intros Hnew Hex.
  destruct (pool_inv_new n p0 Hnew) as (_ & _ & Hph0 & _).
  pose proof (phase_exec tr p0 p Hex) as Hph. rewrite Hph0 in Hph.
  assert (Hshut : phase p ≠ Open ↔ ∃ wait, Shutdown wait ∈ tr).
  { rewrite Hph. split; [|by right]. intros [?|?]; done. }
  clear Hph. unfold dispatch, apply_async.
  split; [|split].
  - rewrite <- Hshut. destruct (phase p); simpl; split; done.
  - intros Hs. apply Hshut in Hs. destruct (phase p); done.
  - intros Hs. destruct (phase p) eqn:Hp; [done|exfalso..];
      apply Hs, Hshut; done.
Qed.

End PoolFacts.

(** ** The batch loop on the pool *)

Section BatchFacts.
Import WorkerPool.
Context {Task V E : Type} (call : Task → Result V E) (has_shape : V → bool).

Local Abbreviation Pool := (Pool Task V E).
Local Abbreviation System := (System Task V E).
Local Abbreviation Dispatcher := (Dispatcher Task V E).
Local Abbreviation finish := (finish call).
Local Abbreviation pool_inv := (pool_inv call).
Local Abbreviation sys_inv := (sys_inv call has_shape).
Local Abbreviation sys_step := (sys_step call has_shape).
Local Abbreviation sys_exec := (sys_exec call has_shape).
Local Abbreviation collect := (collect has_shape).
Local Abbreviation dispatch := (dispatch has_shape).

Lemma start_frame (w : nat) (h : handle) (p p' : Pool) :
  start w h p = Some p' →
  jobs p' = jobs p ∧ phase p' = phase p ∧ capacity p' = capacity p ∧
  results p' = results p.
Proof.
  unfold start. destruct (workers p !! w) as [[?|]|]; try done.
  destruct (decide _); [|done]. by intros [= <-].
Qed.

Lemma finish_frame (w : nat) (p p' : Pool) :
  finish w p = Some p' →
  jobs p' = jobs p ∧ phase p' = phase p ∧ capacity p' = capacity p.
Proof.
  unfold WorkerPool.finish. destruct (workers p !! w) as [[h|]|]; try done.
  destruct (jobs p !! h); [|done]. by intros [= <-].
Qed.

Lemma loop_inv_frame (tasks : list Task) (p p' : Pool) (d : Dispatcher) :
  jobs p' = jobs p →
  loop_inv call has_shape tasks p d → loop_inv call has_shape tasks p' d.
Proof. intros Hj. destruct d; simpl; by rewrite Hj. Qed.

Lemma sys_inv_init (n : nat) (p0 : Pool) (tasks : list Task) :
  Pool_new n = Some p0 → sys_inv tasks (p0, run_batch tasks).
Proof.
  intros Hnew.
  destruct (pool_inv_new call n p0 Hnew) as (Hinv & _ & Hph & Hj & _).
  split; [done|split; [done|]]. simpl. by rewrite Hj.
Qed.

Lemma collect_step (tasks : list Task) (k : nat) (t : Task) (got : list V) :
  tasks !! k = Some t →
  collect got (call <$> drop k tasks)
  = match call t return Dispatcher with
    | Value v =>
        if has_shape v then collect (got ++ [v]) (call <$> drop (S k) tasks)
        else Raised got AttributeError
    | Failure e => Raised got (TaskError e)
    end.
Proof. intros Ht. rewrite (drop_S _ _ _ Ht). simpl. by destruct (call t). Qed.

Lemma sys_inv_step (tasks : list Task) (a : action) (s s' : System) :
  sys_inv tasks s → sys_step a s = Some s' → sys_inv tasks s'.
Proof.
  destruct s as [p d]. intros (Hinv & Hph & Hloop).
  destruct a as [|w h|w]; simpl in *.
  - destruct d as [[|t todo] js|[|h pending] got|got|got e]; simpl; try done.
    + intros [= <-]. destruct Hloop as [Ht Hjs].
      rewrite app_nil_r in Ht. subst tasks js.
      split; [done|split; [done|]]. simpl. split; [done|].
      exists 0. rewrite Nat.sub_0_r, drop_0. split; [lia|done].
    + destruct Hloop as [Ht Hjs].
      pose proof (pool_inv_apply_async call t p Hinv) as Hinv'.
      unfold apply_async in *. rewrite Hph in *. simpl in *.
      intros [= <-]. split; [done|split; [done|]]. simpl. split.
      * by rewrite <- app_assoc.
      * rewrite length_app. simpl. by rewrite Nat.add_1_r, seq_S, Hjs.
    + intros [= <-]. destruct Hloop as (Hj & k & Hk & Hpend & Hcol).
      split; [done|split; [done|]]. simpl. split; [done|].
      assert (k = length tasks) as ->.
      { destruct (length tasks - k) eqn:Hd; [lia|done]. }
      rewrite drop_all in Hcol. by rewrite <- Hcol.
    + destruct Hloop as (Hj & k & Hk & Hpend & Hcol).
      destruct (length tasks - k) as [|m] eqn:Hd; [done|].
      simpl in Hpend. injection Hpend as -> ->.
      destruct (result_of k p) as [r|] eqn:Hr; [|done].
      apply find_result_elem in Hr.
      destruct (inv_results _ _ Hinv k r Hr) as (t & Ht & ->).
      rewrite Hj in Ht. rewrite (collect_step tasks k t got Ht) in Hcol.
      destruct (call t) as [v|e]; [destruct (has_shape v)|]; intros [= <-];
        (split; [done|split; [done|]]); simpl; split; try done.
      exists (S k). split; [lia|]. split; [|done].
      f_equal. lia.
  - destruct (start w h p) as [p'|] eqn:Hst; [|done]. intros [= <-].
    destruct (start_frame _ _ _ _ Hst) as (Hj & Hph' & _).
    split; [by eapply pool_inv_start|]. split; [simpl; congruence|].
    by apply (loop_inv_frame tasks p).
  - destruct (finish w p) as [p'|] eqn:Hfin; [|done]. intros [= <-].
    destruct (finish_frame _ _ _ Hfin) as (Hj & Hph' & _).
    split; [by eapply pool_inv_finish|]. split; [simpl; congruence|].
    by apply (loop_inv_frame tasks p).
Qed.

Lemma sys_inv_exec (tasks : list Task) (sched : list action) (s s' : System) :
  sys_inv tasks s → sys_exec sched s = Some s' → sys_inv tasks s'.
Proof.
  revert s. induction sched as [|a sched IH]; simpl; intros s Hinv Hex.
  - by injection Hex as <-.
  - destruct (sys_step a s) as [s1|] eqn:Hstep; [|done]. simpl in Hex.
    eapply IH; [|done]. by eapply sys_inv_step.
Qed.

(** Every step uses up work: schedules are finite. *)
Lemma sys_work_step (tasks : list Task) (a : action) (s s' : System) :
  sys_inv tasks s → sys_step a s = Some s' → sys_work s' < sys_work s.
Proof.
  destruct s as [p d]. intros (Hinv & Hph & Hloop).
  unfold sys_work. simpl in *. destruct a as [|w h|w]; simpl.
  - destruct d as [[|t todo] js|[|h pending] got|got|got e]; simpl; try done.
    + intros [= <-]. simpl. lia.
    + unfold apply_async. rewrite Hph. intros [= <-].
      unfold pool_work, active_count, running. simpl.
      rewrite !length_app. simpl. lia.
    + intros [= <-]. simpl. lia.
    + destruct (result_of h p) as [[v|e]|]; [destruct (has_shape v)| |];
        intros [= <-]; simpl; lia.
  - destruct (start w h p) as [p'|] eqn:Hst; [|done]. intros [= <-]. simpl.
    pose proof (pool_work_start call _ _ _ _ Hinv Hst). lia.
  - destruct (finish w p) as [p'|] eqn:Hfin; [|done]. intros [= <-]. simpl.
    pose proof (pool_work_finish call _ _ _ Hfin). lia.
Qed.

Lemma sys_work_exec (tasks : list Task) (sched : list action) (s s' : System) :
  sys_inv tasks s → sys_exec sched s = Some s' →
  length sched + sys_work s' ≤ sys_work s.
Proof.
  revert s. induction sched as [|a sched IH]; simpl; intros s Hinv Hex.
  - injection Hex as <-. lia.
  - destruct (sys_step a s) as [s1|] eqn:Hstep; [|done]. simpl in Hex.
    pose proof (sys_work_step tasks a s s1 Hinv Hstep).
    pose proof (IH s1 (sys_inv_step tasks a s s1 Hinv Hstep) Hex). lia.
Qed.

(** Short of quiescence somebody can move. *)
Lemma sys_progress (tasks : list Task) (s : System) :
  sys_inv tasks s → ¬ quiescent s → ∃ a, is_Some (sys_step a s).
Proof.
  destruct s as [p d]. intros (Hinv & Hph & Hloop) Hnq. simpl in *.
  assert (Hpool : ¬ idle p → ∃ a, is_Some (sys_step a (p, d))).
  { intros Hbusy.
    destruct (pool_progress call p Hinv Hbusy) as [[w [p' Hp']]|(w & h & [p' Hp'])].
    - exists (WorkerFinish w). simpl. rewrite Hp'. simpl. eauto.
    - exists (WorkerStart w h). simpl. rewrite Hp'. simpl. eauto. }
  destruct d as [[|t todo] js|[|h pending] got|got|got e].
  - exists Dispatch. simpl. eauto.
  - exists Dispatch. simpl. destruct (apply_async t p) as [p' [h|e]]; eauto.
  - exists Dispatch. simpl. eauto.
  - destruct (result_of h p) as [r|] eqn:Hr.
    { exists Dispatch. simpl. rewrite Hr.
      destruct r as [v|e]; [destruct (has_shape v)|]; eauto. }
    apply Hpool. intros [Hq Hrun].
    destruct Hloop as (Hj & k & Hk & Hpend & _).
    destruct (length tasks - k) as [|m] eqn:Hd; [done|].
    simpl in Hpend. injection Hpend as -> ->.
    destruct (settled_result call p k Hinv) as (_ & t & _ & Hres).
    + rewrite Hj. lia.
    + rewrite Hq. apply not_elem_of_nil.
    + rewrite Hrun. apply not_elem_of_nil.
    + rewrite (inv_kept _ _ Hinv) by (by left). apply not_elem_of_nil.
    + congruence.
  - apply Hpool. intros Hidle. apply Hnq. split; done.
  - apply Hpool. intros Hidle. apply Hnq. split; done.
Qed.

(** From every reachable state some schedule leads to quiescence. *)
Lemma sys_quiesces (tasks : list Task) (s : System) :
  sys_inv tasks s → ∃ sched s', sys_exec sched s = Some s' ∧ quiescent s'.
Proof.
  remember (sys_work s) as n eqn:Hn. revert s Hn.
  induction (lt_wf n) as [n _ IH]. intros s -> Hinv.
  destruct (decide (finished s.2)) as [Hfin|Hnf];
    [destruct (decide (idle s.1)) as [Hidle|Hbusy]|].
  - exists [], s. split; [done|]. split; done.
  - destruct (sys_progress tasks s Hinv) as [a [s1 Hs1]].
    { intros [_ ?]. done. }
    destruct (IH (sys_work s1) (sys_work_step tasks a s s1 Hinv Hs1) s1 eq_refl
                 (sys_inv_step tasks a s s1 Hinv Hs1)) as (sched & s' & Hex & Hq).
    exists (a :: sched), s'. simpl. rewrite Hs1. simpl. done.
  - destruct (sys_progress tasks s Hinv) as [a [s1 Hs1]].
    { intros [? _]. done. }
    destruct (IH (sys_work s1) (sys_work_step tasks a s s1 Hinv Hs1) s1 eq_refl
                 (sys_inv_step tasks a s s1 Hinv Hs1)) as (sched & s' & Hex & Hq).
    exists (a :: sched), s'. simpl. rewrite Hs1. simpl. done.
Qed.

(** What the loop ends with is fixed by the tasks alone. *)
Lemma sys_outcome (tasks : list Task) (s : System) :
  sys_inv tasks s → finished s.2 → s.2 = collect [] (call <$> tasks).
Proof.
  destruct s as [p d]. intros (_ & _ & Hloop) Hfin.
  destruct d; simpl in *; try done; by destruct Hloop.
Qed.

(** At quiescence the pool holds the one Result of every task. *)
Lemma sys_results (tasks : list Task) (s : System) (i : nat) (t : Task) :
  sys_inv tasks s → quiescent s → tasks !! i = Some t →
  result_of i s.1 = Some (call t) ∧ length (results_for i s.1) = 1.
Proof.
  destruct s as [p d]. intros (Hinv & Hph & Hloop) [Hfin [Hq Hrun]] Ht.
  simpl in *.
  assert (Hj : jobs p = tasks).
  { destruct d; simpl in *; try done; by destruct Hloop. }
  destruct (settled_result call p i Hinv) as (Hlen & t' & Ht' & Hres).
  - rewrite Hj. by eapply lookup_lt_Some.
  - rewrite Hq. apply not_elem_of_nil.
  - rewrite Hrun. apply not_elem_of_nil.
  - rewrite (inv_kept _ _ Hinv) by (by left). apply not_elem_of_nil.
  - rewrite Hj, Ht in Ht'. by injection Ht' as <-.
Qed.

(** *** What the second loop makes of a list of Results *)

Lemma collect_values (got vs : list V) :
  Forall (λ v, has_shape v = true) vs →
  collect got (Value <$> vs) = Returned (Task := Task) (E := E) (got ++ vs).
Proof.
  intros Hvs. revert got. induction Hvs as [|v vs Hv _ IH]; intros got; simpl.
  - by rewrite app_nil_r.
  - rewrite Hv, IH. by rewrite <- app_assoc.
Qed.

Lemma collect_failure (got vs : list V) (e : E) (rest : list (Result V E)) :
  Forall (λ v, has_shape v = true) vs →
  collect got ((Value <$> vs) ++ Failure e :: rest)
  = Raised (Task := Task) (got ++ vs) (TaskError e).
Proof.
  intros Hvs. revert got. induction Hvs as [|v vs Hv _ IH]; intros got; simpl.
  - by rewrite app_nil_r.
  - rewrite Hv, IH. by rewrite <- app_assoc.
Qed.

(** The first value without a [shape] ends the loop at [result.shape]. *)
Lemma collect_shapeless (got vs : list V) (v : V) (rest : list (Result V E)) :
  Forall (λ v, has_shape v = true) vs → has_shape v = false →
  collect got ((Value <$> vs) ++ Value v :: rest)
  = Raised (Task := Task) (got ++ vs) AttributeError.
Proof.
  intros Hvs Hno. revert got.
  induction Hvs as [|v' vs Hv _ IH]; intros got; simpl.
  - by rewrite Hno, app_nil_r.
  - rewrite Hv, IH. by rewrite <- app_assoc.
Qed.

Lemma all_values (l : list Task) :
  (∀ i t, l !! i = Some t → ∃ v, call t = Value v ∧ has_shape v = true) →
  ∃ vs, call <$> l = Value <$> vs ∧ Forall (λ v, has_shape v = true) vs.
Proof.
  induction l as [|t l IH]; intros Hall.
  - exists []. by split.
  - destruct (Hall 0 t eq_refl) as (v & Hv & Hs).
    destruct IH as (vs & Hvs & Hsh). { intros i t' Ht'. by apply (Hall (S i)). }
    exists (v :: vs). rewrite !fmap_cons. rewrite Hv, Hvs.
    split; [done|by constructor].
Qed.

Lemma first_failure (tasks : list Task) (k : nat) (t : Task) (e : E) :
  tasks !! k = Some t → call t = Failure e →
  (∀ i t', i < k → tasks !! i = Some t' →
     ∃ v, call t' = Value v ∧ has_shape v = true) →
  ∃ vs, collect [] (call <$> tasks) = Raised (Task := Task) vs (TaskError e) ∧
        Value <$> vs = call <$> take k tasks.
Proof.
  intros Ht He Hbefore.
  destruct (all_values (take k tasks)) as (vs & Hvs & Hsh).
  { intros i t' Hi. apply lookup_take_Some in Hi as [Hi Hlt]. eauto. }
  exists vs. split; [|done].
  rewrite <- (take_drop_middle tasks k t Ht), fmap_app, fmap_cons, Hvs, He.
  by apply collect_failure.
Qed.

Lemma first_shapeless (tasks : list Task) (k : nat) (t : Task) (v : V) :
  tasks !! k = Some t → call t = Value v → has_shape v = false →
  (∀ i t', i < k → tasks !! i = Some t' →
     ∃ v', call t' = Value v' ∧ has_shape v' = true) →
  ∃ vs, collect [] (call <$> tasks) = Raised (Task := Task) vs AttributeError ∧
        Value <$> vs = call <$> take k tasks.
Proof.
  intros Ht Hv Hno Hbefore.
  destruct (all_values (take k tasks)) as (vs & Hvs & Hsh).
  { intros i t' Hi. apply lookup_take_Some in Hi as [Hi Hlt]. eauto. }
  exists vs. split; [|done].
  rewrite <- (take_drop_middle tasks k t Ht), fmap_app, fmap_cons, Hvs, Hv.
  by apply collect_shapeless.
Qed.

(** C1, as it holds.  On a pool of any size, in every interleaving of the
    loop with the workers: when the loop of lines 118-120 is over it has
    received the tasks' values in submission order up to the first task that
    raised or whose value has no [shape] to print -- all [N] of them, the
    value of task [i] at position [i], when no task raises and every value
    has a [shape]; the values of the tasks before the first failing one,
    and then that task's exception re-raised by [get], or the
    AttributeError of [result.shape], otherwise.  No schedule is longer than
    [4 N + 2] steps and some schedule brings the loop to its end. *)
Theorem run_batch_in_submission_order (n : nat) (p0 : Pool) (tasks : list Task) :
  Pool_new n = Some p0 →
  (∀ sched s, sys_exec sched (p0, run_batch tasks) = Some s → finished s.2 →
     s.2 = collect [] (call <$> tasks)) ∧
  (∀ sched s, sys_exec sched (p0, run_batch tasks) = Some s →
     length sched ≤ 4 * length tasks + 2) ∧
  (∃ sched s, sys_exec sched (p0, run_batch tasks) = Some s ∧ finished s.2) ∧
  (∀ vs, call <$> tasks = Value <$> vs →
     Forall (λ v, has_shape v = true) vs →
     collect [] (call <$> tasks) = Returned (Task := Task) vs ∧
     length vs = length tasks ∧
     ∀ i t, tasks !! i = Some t → ∃ v, vs !! i = Some v ∧ call t = Value v) ∧
  (∀ k t e, tasks !! k = Some t → call t = Failure e →
     (∀ i t', i < k → tasks !! i = Some t' →
        ∃ v, call t' = Value v ∧ has_shape v = true) →
     ∃ vs, collect [] (call <$> tasks) = Raised (Task := Task) vs (TaskError e) ∧
           Value <$> vs = call <$> take k tasks) ∧
  (∀ k t v, tasks !! k = Some t → call t = Value v → has_shape v = false →
     (∀ i t', i < k → tasks !! i = Some t' →
        ∃ v', call t' = Value v' ∧ has_shape v' = true) →
     ∃ vs, collect [] (call <$> tasks) = Raised (Task := Task) vs AttributeError ∧
           Value <$> vs = call <$> take k tasks).
Proof.
  intros Hnew. pose proof (sys_inv_init n p0 tasks Hnew) as Hinit.
  split; [|split; [|split; [|split; [|split]]]].
  - intros sched s Hex Hfin.
    apply (sys_outcome tasks); [|done].
    by apply (sys_inv_exec tasks sched (p0, run_batch tasks)).
  - intros sched s Hex.
    pose proof (sys_work_exec tasks sched _ s Hinit Hex) as Hw.
    destruct (pool_inv_new call n p0 Hnew) as (_ & _ & _ & _ & Hq & Hr & _).
    unfold sys_work, pool_work, active_count in Hw. simpl in Hw.
    rewrite Hq, Hr in Hw. simpl in Hw. lia.
  - destruct (sys_quiesces tasks _ Hinit) as (sched & s & Hex & Hfin & _).
    by exists sched, s.
  - intros vs Hvs Hsh. rewrite Hvs. split; [by apply collect_values|].
    split.
    + apply (f_equal length) in Hvs. by rewrite !length_fmap in Hvs.
    + intros i t Ht. apply (f_equal (λ l, l !! i)) in Hvs.
      rewrite !list_lookup_fmap, Ht in Hvs. simpl in Hvs.
      destruct (vs !! i) as [v|]; [|done].
      exists v. split; [done|]. by injection Hvs.
  - intros k t e. apply first_failure.
  - intros k t v. apply first_shapeless.
Qed.

(** C4, as it holds.  When task [k] is the only one of the batch that
    raises, and the values of the tasks before it have a [shape] for line
    120 to print: every run of the loop ends by re-raising that task's
    exception out of [get], having received the values of tasks
    [0 .. k-1] and returned no sequence at all; the failure stops no other
    task: once the workers are done the pool holds the one Result of every
    task, the failure for task [k] and the computed value for each of the
    others; and that state is reached. *)
Theorem one_failing_task
    (n : nat) (p0 : Pool) (tasks : list Task) (k : nat) (t : Task) (e : E) :
  Pool_new n = Some p0 →
  tasks !! k = Some t → call t = Failure e →
  (∀ i t', i ≠ k → tasks !! i = Some t' →
     ∃ v, call t' = Value v ∧ (i < k → has_shape v = true)) →
  (∀ sched s, sys_exec sched (p0, run_batch tasks) = Some s → finished s.2 →
     ∃ vs, s.2 = Raised vs (TaskError e) ∧
           Value <$> vs = call <$> take k tasks ∧
           returned_slots s.2 = None) ∧
  (∀ sched s, sys_exec sched (p0, run_batch tasks) = Some s → quiescent s →
     ∀ i t', tasks !! i = Some t' →
       result_of i s.1 = Some (call t') ∧ length (results_for i s.1) = 1) ∧
  (∃ sched s, sys_exec sched (p0, run_batch tasks) = Some s ∧ quiescent s).
Proof.
  intros Hnew Ht He Hothers.
  pose proof (sys_inv_init n p0 tasks Hnew) as Hinit.
  split; [|split].
  - intros sched s Hex Hfin.
    pose proof (sys_inv_exec tasks sched _ s Hinit Hex) as Hinv.
    rewrite (sys_outcome tasks s Hinv Hfin).
    destruct (first_failure tasks k t e Ht He) as (vs & -> & Hvs).
    { intros i t' Hi Ht'.
      destruct (Hothers i t') as (v & Hv & Hs); [lia|done|]. eauto. }
    by exists vs.
  - intros sched s Hex Hq i t' Ht'.
    apply (sys_results tasks); [|done..].
    by apply (sys_inv_exec tasks sched (p0, run_batch tasks)).
  - by apply (sys_quiesces tasks).
Qed.

(** C7.  Two runs of the loop on the same tasks, whatever the two
    schedules and the completion orders they produce, end alike: the same
    results in the same order (and the same exception, if a task raised). *)
Theorem run_batch_deterministic
    (n : nat) (p0 : Pool) (tasks : list Task)
    (sched1 sched2 : list action) (s1 s2 : System) :
  Pool_new n = Some p0 →
  sys_exec sched1 (p0, run_batch tasks) = Some s1 →
  sys_exec sched2 (p0, run_batch tasks) = Some s2 →
  finished s1.2 → finished s2.2 →
  s1.2 = s2.2.
Proof.
  intros Hnew Hex1 Hex2 Hfin1 Hfin2.
  pose proof (sys_inv_init n p0 tasks Hnew) as Hinit.
  rewrite (sys_outcome tasks s1), (sys_outcome tasks s2); try done.
  - by apply (sys_inv_exec tasks sched2 (p0, run_batch tasks)).
  - by apply (sys_inv_exec tasks sched1 (p0, run_batch tasks)).
Qed.

Lemma capacity_sys_step (a : action) (s s' : System) :
  sys_step a s = Some s' → capacity s'.1 = capacity s.1.
Proof.
  destruct s as [p d]. destruct a as [|w h|w]; simpl.
  - destruct d as [[|t todo] js|[|h pending] got|got|got e]; simpl; try done.
    + by intros [= <-].
    + unfold apply_async. destruct (phase p); by intros [= <-].
    + by intros [= <-].
    + destruct (result_of h p) as [[v|e]|]; [destruct (has_shape v)| |];
        by intros [= <-].
  - destruct (start w h p) as [p'|] eqn:Hst; [|done]. intros [= <-].
    by destruct (start_frame _ _ _ _ Hst) as (_ & _ & ? & _).
  - destruct (finish w p) as [p'|] eqn:Hfin; [|done]. intros [= <-].
    by destruct (finish_frame _ _ _ Hfin) as (_ & _ & ?).
Qed.

Lemma capacity_sys_exec (sched : list action) (s s' : System) :
  sys_exec sched s = Some s' → capacity s'.1 = capacity s.1.
Proof.
  revert s. induction sched as [|a sched IH]; simpl; intros s Hex.
  - by injection Hex as <-.
  - destruct (sys_step a s) as [s1|] eqn:Hstep; [|done]. simpl in Hex.
    rewrite (IH s1 Hex). by eapply capacity_sys_step.
Qed.

(** C2.  A pool made with [n] workers keeps capacity [n], and in every
    state it can reach, whatever its caller and its workers do, between 0
    and [n] jobs are in flight; so it is in every state of the batch loop
    running on it. *)
Theorem active_count_within_capacity (n : nat) (p0 : Pool) :
  Pool_new n = Some p0 →
  (∀ tr p, exec call tr p0 = Some p →
     capacity p = n ∧ 0 ≤ active_count p ≤ capacity p) ∧
  (∀ tasks sched s, sys_exec sched (p0, run_batch tasks) = Some s →
     capacity s.1 = n ∧ 0 ≤ active_count s.1 ≤ capacity s.1).
Proof.
  intros Hnew.
  destruct (pool_inv_new call n p0 Hnew) as (Hinv & Hcap & _).
  split.
  - intros tr p Hex. split; [by rewrite (capacity_exec call tr p0 p)|].
    split; [lia|]. apply (active_count_le call).
    by apply (pool_inv_exec call tr p0).
  - intros tasks sched s Hex.
    split; [by rewrite (capacity_sys_exec sched _ s Hex)|].
    split; [lia|]. apply (active_count_le call).
    by apply (sys_inv_exec tasks sched _ s (sys_inv_init n p0 tasks Hnew) Hex).
Qed.

End BatchFacts.

(** ** The join loop *)

Section JoinFacts.
Import Processes.
Context {Args : Type}.

Lemma join_inv_step (args : list Args) (m : move) (s s' : State (Args := Args)) :
  join_inv args s → proc_step m s = Some s' → join_inv args s'.
Proof.
  destruct s as [ps ma]. unfold join_inv, proc_step. simpl.
  destruct m as [|i].
  - destruct ma as [[|a todo]|k|]; try done.
    + intros Hlen [= <-]. simpl in *. split; [lia|]. by rewrite take_0.
    + intros Hlen [= <-]. simpl in *. rewrite length_app. simpl. lia.
    + intros [Hlen Hex]. destruct (ps !! k) as [[|]|] eqn:Hk; try done.
      * intros [= <-]. simpl. split; [done|].
        rewrite (take_S_r ps k Exited Hk). apply Forall_app. split; [done|].
        by repeat constructor.
      * intros [= <-]. simpl. split; [done|].
        apply lookup_ge_None in Hk. by rewrite take_ge in Hex.
  - destruct (ps !! i) as [[|]|] eqn:Hi; try done. intros Hinv [= <-].
    simpl. destruct ma as [todo|k|]; rewrite ?length_insert; try done.
    + destruct Hinv as [Hlen Hex]. split; [done|].
      destruct (decide (i < k)) as [Hlt|Hge].
      * rewrite take_insert_lt by done. by apply Forall_insert.
      * rewrite take_insert_ge by lia. done.
    + destruct Hinv as [Hlen Hex]. split; [done|]. by apply Forall_insert.
Qed.

(** X5.  The join loop is a barrier: once the script is past the second
    loop, every process that was started has exited, and one was started
    for each chunk. *)
Lemma join_loop_barrier (args : list Args) (ms : list move) (s : State) :
  proc_exec ms (spawn_and_join args) = Some s → s.2 = Joined →
  length s.1 = length args ∧ Forall (λ p, p = Exited) s.1.
Proof.
  assert (Hgen : ∀ s0, join_inv args s0 → proc_exec ms s0 = Some s →
                       join_inv args s).
  { induction ms as [|m ms IH]; simpl; intros s0 Hinv Hex.
    - by injection Hex as <-.
    - destruct (proc_step m s0) as [s1|] eqn:Hstep; [|done]. simpl in Hex.
      eapply IH; [|done]. by eapply join_inv_step. }
  intros Hex Hj. specialize (Hgen _ (eq_refl : join_inv args (spawn_and_join args)) Hex).
  unfold join_inv in Hgen. by rewrite Hj in Hgen.
Qed.

End JoinFacts.

(* ===================================================================== *)
(** * The properties on concrete batches *)
(* ===================================================================== *)

Section Worked.
Import WorkerPool Batch.

Lemma pool4_new {Task V E : Type} (p0 : Pool Task V E) :
  Pool_new 4 = Some p0 → p0 = pool4.
Proof. by intros [= <-]. Qed.

(** The definitions on small inputs. *)

Example matrix_loop_two_rows_each :
  Numpy.matrix_loop 0%Z Z.add Z.mul
    (map (λ i, [Z.of_nat i; 1%Z]) (seq 0 20)) 1
  = [[1; 3; 5; 7; 9; 11; 13; 15; 17; 19; 21; 23; 25; 27; 29; 31; 33; 35; 37; 39];
     [1; 4; 7; 10; 13; 16; 19; 22; 25; 28; 31; 34; 37; 40; 43; 46; 49; 52; 55; 58]]%Z.
Proof. vm_compute. reflexivity. Qed.

Example all_chunks_twelve_rows :
  length (Numpy.all_chunks 0%Z Z.add Z.mul (map (λ i, [Z.of_nat i]) (seq 0 12))) = 10 ∧
  length (Numpy.dot_T 0%Z Z.add Z.mul (map (λ i, [Z.of_nat i]) (seq 0 12))
                      (map (λ i, [Z.of_nat i]) (seq 0 12))) = 12.
Proof. split; vm_compute; reflexivity. Qed.

Example all_chunks_nine_rows :
  Numpy.all_chunks 0%Z Z.add Z.mul (map (λ i, [Z.of_nat i]) (seq 0 9)) = [].
Proof. vm_compute. reflexivity. Qed.

Example reflect_border :
  map (Image.reflect 4) [-5; -4; -1; 0; 3; 4; 7; 8]%Z = [3; 3; 0; 0; 3; 3; 0; 0].
Proof. vm_compute. reflexivity. Qed.

Example median_filter_3x3 :
  Image.median_filter Z.leb [[1; 2; 3]; [4; 50; 6]; [7; 8; 9]]%Z 3
  = Some [[2; 3; 3]; [4; 6; 6]; [7; 8; 9]]%Z.
Proof. vm_compute. reflexivity. Qed.

Example process_image_3x3 :
  Image.process_image Z.sub Z.leb [[[1; 2; 3]; [4; 50; 6]; [7; 8; 9]]%Z] 0 3
  = Some ([[[1; 2; 3]; [4; 50; 6]; [7; 8; 9]];
           [[2; 3; 3]; [4; 6; 6]; [7; 8; 9]];
           [[-1; -1; 0]; [0; 44; 0]; [0; 0; 0]]]%Z, 2).
Proof. vm_compute. reflexivity. Qed.

Example sum_task_values :
  map sum_task [0; 1; 9] = [4950; 14950; 94950]%Z.
Proof. vm_compute. reflexivity. Qed.

Example start_needs_idle_worker :
  exec call_sum [Submit 0; Submit 1; Start 0 0; Start 0 1] pool1 = None.
Proof. vm_compute. reflexivity. Qed.

Example get_blocks_until_done :
  sys_exec call_sum hasattr_shape (replicate 4 Dispatch) (pool1, run_batch [0; 1])
  = None.
Proof. vm_compute. reflexivity. Qed.

Lemma sum_task_closed (i : nat) :
  i < 10 → sum_task i = (10000 * Z.of_nat i + 4950)%Z.
Proof.
  intros Hi. do 10 (destruct i as [|i]; [vm_compute; reflexivity|]). lia.
Qed.

(** C8, as it holds.  Ten tasks, task [i] computing
    [sum(range(i*100, (i+1)*100))], on a pool of four workers.  The pool
    computes them all: once loop and workers are at rest it holds under
    handle [i] the one Result of task [i], the value [10000 * i + 4950],
    and that state is reached.  The loop of lines 118-120 receives none of
    them: the value of task 0 is a Python [int], [result.shape] raises
    AttributeError, and every run of the loop ends there.  On the same sums
    as numpy scalars every run that ends returns [4950, 14950, ..., 94950]
    in index order, and some run does. *)
Theorem sum_batch_on_four_workers (p0 : Pool nat Number unit) :
  Pool_new 4 = Some p0 →
  (∀ sched s,
     sys_exec call_sum hasattr_shape sched (p0, run_batch (seq 0 10)) = Some s →
     finished s.2 →
     s.2 = Raised [] AttributeError ∧ returned_slots s.2 = None) ∧
  (∀ sched s,
     sys_exec call_sum hasattr_shape sched (p0, run_batch (seq 0 10)) = Some s →
     quiescent s →
     ∀ i, i < 10 →
       result_of i s.1 = Some (Value (int (10000 * Z.of_nat i + 4950))) ∧
       length (results_for i s.1) = 1) ∧
  (∃ sched s,
     sys_exec call_sum hasattr_shape sched (p0, run_batch (seq 0 10)) = Some s ∧
     quiescent s) ∧
  (∀ sched s,
     sys_exec call_np_sum hasattr_shape sched (p0, run_batch (seq 0 10)) = Some s →
     finished s.2 →
     s.2 = Returned (int64 <$> [4950; 14950; 24950; 34950; 44950;
                                54950; 64950; 74950; 84950; 94950]%Z)) ∧
  (∃ sched s,
     sys_exec call_np_sum hasattr_shape sched (p0, run_batch (seq 0 10)) = Some s ∧
     finished s.2).
Proof.
  intros Hnew.
  pose proof (sys_inv_init call_sum hasattr_shape 4 p0 (seq 0 10) Hnew) as Hint.
  pose proof (sys_inv_init call_np_sum hasattr_shape 4 p0 (seq 0 10) Hnew) as Hnp.
  split; [|split; [|split; [|split]]].
  - intros sched s Hex Hfin.
    rewrite (sys_outcome call_sum hasattr_shape (seq 0 10) s); [done| |done].
    by eapply sys_inv_exec.
  - intros sched s Hex Hq i Hi.
    destruct (sys_results call_sum hasattr_shape (seq 0 10) s i i) as [Hr Hone];
      [by eapply sys_inv_exec|done|by apply lookup_seq|].
    split; [|done]. rewrite Hr. unfold call_sum. by rewrite sum_task_closed.
  - by apply (sys_quiesces call_sum hasattr_shape (seq 0 10)).
  - intros sched s Hex Hfin.
    rewrite (sys_outcome call_np_sum hasattr_shape (seq 0 10) s); [done| |done].
    by eapply sys_inv_exec.
  - destruct (sys_quiesces call_np_sum hasattr_shape (seq 0 10) _ Hnp)
      as (sched & s & Hex & Hfin & _).
    by exists sched, s.
Qed.

Lemma sum_batch_on_four_workers_witness :
  ∃ sched s,
    sys_exec call_np_sum hasattr_shape sched (pool4, run_batch (seq 0 10)) = Some s ∧
    finished s.2.
Proof.
  exact (proj2 (proj2 (proj2 (proj2 (sum_batch_on_four_workers pool4 eq_refl))))).
Defined.

(** The ten sums as the task of the example computes them, Python [int]s,
    on the pool of four: all ten Results are in the pool, in the order the
    workers finished, and the loop has ended in AttributeError at its first
    [result.shape], with nothing received and nothing returned. *)
Lemma sum_batch_raises_attribute_error :
  ∃ s, sys_exec call_sum hasattr_shape (four_at_once 1)
                (pool4, run_batch (seq 0 10)) = Some s ∧
       quiescent s ∧
       result_of 0 s.1 = Some (Value (int 4950)) ∧
       length (results s.1) = 10 ∧
       s.2 = Raised [] AttributeError ∧
       returned_slots s.2 = None.
Proof.
  eexists. split; [vm_compute; reflexivity|]. simpl.
  repeat split; reflexivity.
Qed.

(** *** C1 *)

Lemma run_batch_in_submission_order_witness :
  ∃ s, sys_exec call_np_sum hasattr_shape (four_at_once 11)
                (pool4, run_batch (seq 0 10)) = Some s ∧
       s.2 = collect hasattr_shape [] (call_np_sum <$> seq 0 10).
Proof.
  eexists. split; [vm_compute; reflexivity|].
  apply (proj1 (run_batch_in_submission_order call_np_sum hasattr_shape 4 pool4
                  (seq 0 10) eq_refl)
               (four_at_once 11)).
  - vm_compute. reflexivity.
  - exact I.
Defined.

(** A batch of one task that raises: the loop ends in the exception, on
    this schedule and on every other, and hands back no sequence. *)
Lemma failing_batch_returns_nothing :
  (∃ s, sys_exec (call_np_sum_but 0) hasattr_shape (one_by_one [0] 1 1)
                 (pool4, run_batch [0])
        = Some s ∧
        quiescent s ∧ s.2 = Raised [] (TaskError ()) ∧
        returned_slots s.2 = None) ∧
  (∀ sched s, sys_exec (call_np_sum_but 0) hasattr_shape sched
                       (pool4, run_batch [0]) = Some s →
     finished s.2 → returned_slots s.2 = None).
Proof.
  split.
  - eexists. split; [vm_compute; reflexivity|]. simpl.
    repeat split; reflexivity.
  - intros sched s Hex Hfin.
    rewrite (sys_outcome (call_np_sum_but 0) hasattr_shape [0] s); [done| |done].
    eapply sys_inv_exec; [|done]. by apply (sys_inv_init _ _ 4).
Qed.

(** *** C4 *)

Lemma one_failing_task_witness :
  result_of 3 (mkPool 4 Open [0; 1; 2; 3; 4] [] [None; None; None; None]
                 [(0, Value (int64 4950)); (1, Value (int64 14950));
                  (2, Failure ());
                  (3, Value (int64 34950)); (4, Value (int64 44950))] [])
  = Some (call_np_sum_but 2 3).
Proof.
  assert (Hothers : ∀ i t', i ≠ 2 → seq 0 5 !! i = Some t' →
                      ∃ v, call_np_sum_but 2 t' = Value v ∧
                           (i < 2 → hasattr_shape v = true)).
  { intros i t' Hne Hi. apply lookup_seq in Hi as [-> _]. simpl.
    unfold call_np_sum_but. rewrite decide_False by done. eauto. }
  assert (Hex : sys_exec (call_np_sum_but 2) hasattr_shape
                  (one_by_one (seq 0 5) 5 3) (pool4, run_batch (seq 0 5))
                = Some (mkPool 4 Open [0; 1; 2; 3; 4] [] [None; None; None; None]
                          [(0, Value (int64 4950)); (1, Value (int64 14950));
                           (2, Failure ());
                           (3, Value (int64 34950)); (4, Value (int64 44950))] [],
                        Raised [int64 4950; int64 14950] (TaskError ()))).
  { vm_compute. reflexivity. }
  refine (proj1 (proj1 (proj2 (one_failing_task (call_np_sum_but 2) hasattr_shape
                                 4 pool4 (seq 0 5)
                                 2 2 () eq_refl eq_refl eq_refl Hothers))
                       _ _ Hex _ 3 3 eq_refl)).
  split; [exact I|]. split; reflexivity.
Defined.

(** Five tasks, their values numpy scalars, of which task 2 raises: the
    loop receives the values of tasks 0 and 1 and ends in the exception; it
    returns no sequence of five entries, although the pool holds all five
    Results. *)
Lemma failing_task_aborts_collection :
  ∃ s, sys_exec (call_np_sum_but 2) hasattr_shape (one_by_one (seq 0 5) 5 3)
                (pool4, run_batch (seq 0 5)) = Some s ∧
       quiescent s ∧
       s.2 = Raised [int64 4950; int64 14950] (TaskError ()) ∧
       returned_slots s.2 = None ∧
       results s.1 = [(0, Value (int64 4950)); (1, Value (int64 14950));
                      (2, Failure ());
                      (3, Value (int64 34950)); (4, Value (int64 44950))].
Proof.
  eexists. split; [vm_compute; reflexivity|]. simpl.
  repeat split; reflexivity.
Qed.

(** *** C7 *)

Lemma run_batch_deterministic_witness :
  ∃ s1 s2,
    sys_exec call_np_sum hasattr_shape (four_at_once 11)
             (pool4, run_batch (seq 0 10)) = Some s1 ∧
    sys_exec call_np_sum hasattr_shape (one_by_one (rev (seq 0 10)) 10 11)
             (pool4, run_batch (seq 0 10)) = Some s2 ∧
    results s1.1 ≠ results s2.1 ∧
    s1.2 = s2.2.
Proof.
  eexists _, _. split; [vm_compute; reflexivity|].
  split; [vm_compute; reflexivity|].
  split; [simpl; discriminate|].
  apply (run_batch_deterministic call_np_sum hasattr_shape 4 pool4 (seq 0 10)
           (four_at_once 11) (one_by_one (rev (seq 0 10)) 10 11)).
  - reflexivity.
  - vm_compute. reflexivity.
  - vm_compute. reflexivity.
  - exact I.
  - exact I.
Defined.

(** *** C2 *)

Lemma active_count_within_capacity_witness :
  ∃ p, exec call_sum [Submit 0; Submit 1; Submit 2; Submit 3; Submit 4;
                      Start 0 0; Start 1 1; Start 2 2; Start 3 3] pool4
       = Some p ∧
       active_count p = 4 ∧ queue p = [4] ∧
       capacity p = 4 ∧ 0 ≤ active_count p ≤ capacity p.
Proof.
  eexists. split; [vm_compute; reflexivity|].
  split; [reflexivity|]. split; [reflexivity|].
  apply (proj1 (active_count_within_capacity call_sum hasattr_shape 4 pool4
                  eq_refl)
               [Submit 0; Submit 1; Submit 2; Submit 3; Submit 4;
                Start 0 0; Start 1 1; Start 2 2; Start 3 3]).
  vm_compute. reflexivity.
Defined.

(** *** C3, C5, C6: a pool of one worker that is shut down *)

Lemma task_result_at_most_once_witness :
  starts 0 shut_down_early ≤ 1 ∧
  length (results_for 0 (mkPool 1 Closed [0; 1] [] [None]
                                [(0, call_sum 0)] [1])) ≤ 1.
Proof.
  destruct (task_result_at_most_once call_sum 1 pool1
              (mkPool 1 Closed [0; 1] [] [None] [(0, call_sum 0)] [1])
              shut_down_early 0 eq_refl ltac:(vm_compute; reflexivity)
              ltac:(simpl; lia)) as (H1 & H2 & _).
  split; [exact H1|exact H2].
Defined.

(** Two tasks are accepted; the pool is shut down without waiting while
    the first runs; the first completes.  The workers are idle, the pool is
    closed, and the second task, accepted and never started, has no Result
    and never will have one. *)
Lemma abandoned_task_has_no_result :
  exec call_sum shut_down_early pool1
    = Some (mkPool 1 Closed [0; 1] [] [None] [(0, call_sum 0)] [1]) ∧
  1 < length [0; 1] ∧
  idle (mkPool 1 Closed [0; 1] [] [None] [(0, call_sum 0)] [1]) ∧
  starts 1 shut_down_early = 0 ∧
  results_for 1 (mkPool 1 Closed [0; 1] [] [None] [(0, call_sum 0)] [1]) = [] ∧
  (∀ tr' p', exec call_sum tr'
               (mkPool 1 Closed [0; 1] [] [None] [(0, call_sum 0)] [1]) = Some p' →
             results_for 1 p' = []).
Proof.
  split; [reflexivity|]. split; [simpl; lia|]. split; [by split|].
  split; [reflexivity|]. split; [reflexivity|].
  intros tr' p' Hex.
  destruct (abandoned_forever call_sum 1 pool1 _ p' shut_down_early tr' 1
              eq_refl ltac:(vm_compute; reflexivity) Hex)
    as (_ & _ & Hfor & _); [|done].
  simpl. apply elem_of_cons. by left.
Qed.

Lemma shutdown_waits_or_abandons_witness :
  ∃ p1 p2,
    shutdown false (mkPool 1 Open [0; 1] [1] [Some 0] [] []) = Some p1 ∧
    shutdown_return p1 = Some p2 ∧
    abandoned p2 = [1] ∧ queue p2 = [] ∧
    workers p2 = [Some 0] ∧ results p2 = ([] : list (nat * Result Number unit)).
Proof.
  exact (proj1 (proj2 (shutdown_waits_or_abandons call_sum 1 pool1
                         (mkPool 1 Open [0; 1] [1] [Some 0] [] [])
                         [Submit 0; Submit 1; Start 0 0] eq_refl
                         ltac:(vm_compute; reflexivity)))
               eq_refl).
Defined.

Lemma submit_refused_after_shutdown_witness :
  (apply_async 7 (mkPool (V := Number) (E := unit) 1 (Closing true)
                         [0] [0] [None] [] [])).2
  = Refused PoolClosed.
Proof.
  apply (proj1 (submit_refused_after_shutdown call_sum 1 pool1
                  (mkPool 1 (Closing true) [0] [0] [None] [] [])
                  [Submit 0; Shutdown true] 7 eq_refl
                  ltac:(vm_compute; reflexivity))).
  exists true. apply elem_of_cons. right. apply elem_of_cons. by left.
Defined.

End Worked.

(** ** The image filter on frames of doubles *)

Section WorkedImage.
Import Image.

Lemma process_image_high_pass_witness :
  ∃ h' out,
    process_image_float [[[PrimFloat.one; PrimFloat.one];
                          [PrimFloat.one; PrimFloat.one]]] 0 3 = Some (h', out) ∧
    h' !! out = Some [[PrimFloat.zero; PrimFloat.zero];
                      [PrimFloat.zero; PrimFloat.zero]] ∧
    h' !! 0 = Some [[PrimFloat.one; PrimFloat.one];
                    [PrimFloat.one; PrimFloat.one]].
Proof.
  destruct (process_image_high_pass PrimFloat.sub PrimFloat.leb
              [[[PrimFloat.one; PrimFloat.one]; [PrimFloat.one; PrimFloat.one]]]
              0 3 _ eq_refl ltac:(lia))
    as (h' & out & smooth & Hrun & Hsm & Hout & _ & Hkeep & _).
  exists h', out. split; [exact Hrun|]. split; [|exact Hkeep].
  rewrite Hout. injection Hsm as <-. reflexivity.
Defined.

(** A frame whose pixels all hold NaN, as invalid pixels of a FITS image
    do, or all hold +infinity: the processed frame holds NaN, not zero.
    And with a filter size of 0 nothing is returned. *)
Lemma process_image_nan_frame :
  constant_frame PrimFloat.nan [[PrimFloat.nan]] ∧
  (∃ h' out r, process_image_float [[[PrimFloat.nan]]] 0 1 = Some (h', out) ∧
               h' !! out = Some r ∧ r = [[PrimFloat.nan]] ∧
               ¬ constant_frame PrimFloat.zero r) ∧
  constant_frame PrimFloat.infinity [[PrimFloat.infinity]] ∧
  (∃ h' out, process_image_float [[[PrimFloat.infinity]]] 0 1 = Some (h', out) ∧
             h' !! out = Some [[PrimFloat.nan]]) ∧
  process_image_float [[[PrimFloat.one]]] 0 0 = None.
Proof.
  split; [by repeat constructor|]. split.
  - eexists _, _, _. split; [vm_compute; reflexivity|].
    split; [reflexivity|]. split; [reflexivity|].
    intros Hc. apply Forall_cons in Hc as [Hrow _].
    apply Forall_cons in Hrow as [Hnan _].
    apply (f_equal PrimFloat.is_nan) in Hnan. vm_compute in Hnan. discriminate.
  - split; [by repeat constructor|]. split; [|reflexivity].
    eexists _, _. split; [vm_compute; reflexivity|]. reflexivity.
Qed.

End WorkedImage.

(* ===================================================================== *)
(** * Further properties of the notebook's cells *)
(* ===================================================================== *)

(** ** The chunks, row by row *)

Section ChunkFacts.
Import Numpy.
Context {R : Type} (zero : R) (add mul : R → R → R).

Local Abbreviation dot_T := (dot_T zero add mul).
Local Abbreviation vdot := (vdot zero add mul).
Local Abbreviation matrix_loop := (matrix_loop zero add mul).

Lemma length_slice {A : Type} (a b : nat) (l : list A) :
  length (slice a b l) = (b - a) `min` (length l - a).
Proof. unfold slice. by rewrite length_take, length_drop. Qed.

Lemma lookup_slice {A : Type} (a b r : nat) (l : list A) :
  r < b - a → slice a b l !! r = l !! (a + r).
Proof.
  intros Hr. unfold slice. rewrite lookup_take_lt by done. apply lookup_drop.
Qed.

Lemma index_end_le (mat : matrix R) (index : nat) :
  index < 10 → index_end mat index ≤ shape0 mat.
Proof.
  intros Hi. unfold index_end.
  pose proof (Nat.div_mod_eq (shape0 mat) 10). nia.
Qed.

Lemma length_matrix_loop (mat : matrix R) (index : nat) :
  index < 10 → length (matrix_loop mat index) = shape0 mat / 10.
Proof.
  intros Hi. pose proof (index_end_le mat index Hi) as Hle.
  unfold Numpy.matrix_loop. rewrite (length_dot_T zero add mul), length_slice.
  unfold index_end, index_start, shape0 in *. nia.
Qed.

Lemma all_chunks_prefix (mat : matrix R) :
  concat (map (matrix_loop mat) (seq 0 10))
  = take (10 * (shape0 mat / 10)) (dot_T mat mat).
Proof.
  rewrite <- (Nat.mul_comm (shape0 mat / 10)).
  rewrite <- concat_slices. f_equal. apply map_ext. intros i.
  unfold Numpy.matrix_loop, index_start, index_end. apply dot_T_slice.
Qed.


(** X2.  Where a row of the product is found: row [r] of job [i]'s chunk
    is row [shape0 // 10 * i + r] of [mat.dot(mat.T)]; the other way
    round, row [k] of the product, for [k] below [10 * (shape0 // 10)], is
    row [k mod (shape0 // 10)] of job [k // (shape0 // 10)], a job of the
    ten; and entry (k, c) of the product is the inner product of rows [k]
    and [c] of [mat]. *)
Theorem matrix_loop_rows (mat : matrix R) :
  (∀ i r, r < shape0 mat / 10 →
     matrix_loop mat i !! r = dot_T mat mat !! (shape0 mat / 10 * i + r)) ∧
  (∀ k, k < 10 * (shape0 mat / 10) →
     k / (shape0 mat / 10) < 10 ∧
     dot_T mat mat !! k
     = matrix_loop mat (k / (shape0 mat / 10)) !! (k `mod` (shape0 mat / 10))) ∧
  (∀ k c row col, mat !! k = Some row → mat !! c = Some col →
     dot_T mat mat !! k ≫= (λ l, l !! c) = Some (vdot row col)).
Proof.
  assert (Hrow : ∀ i r, r < shape0 mat / 10 →
     matrix_loop mat i !! r = dot_T mat mat !! (shape0 mat / 10 * i + r)).
  { intros i r Hr. unfold Numpy.matrix_loop.
    rewrite (dot_T_slice zero add mul). apply lookup_slice.
    unfold index_end, index_start. nia. }
  split; [exact Hrow|]. split.
  - intros k Hk.
    assert (Hq : shape0 mat / 10 ≠ 0) by lia.
    pose proof (Nat.div_mod_eq k (shape0 mat / 10)) as Hdm.
    pose proof (Nat.mod_upper_bound k (shape0 mat / 10) Hq) as Hub.
    split; [apply Nat.Div0.div_lt_upper_bound; lia|].
    rewrite Hrow by done. f_equal. lia.
  - intros k c row col Hk Hc. unfold Numpy.dot_T.
    change (map ?f ?l) with (f <$> l).
    rewrite list_lookup_fmap, Hk. simpl.
    by rewrite list_lookup_fmap, Hc.
Qed.

(** X3.  A matrix with fewer than ten rows gives the jobs nothing to do:
    every job, whatever its index, returns an empty chunk, and only then;
    from ten rows on none of the ten jobs returns an empty chunk. *)
Theorem matrix_loop_small (mat : matrix R) :
  ((∀ index, matrix_loop mat index = []) ↔ shape0 mat < 10) ∧
  (10 ≤ shape0 mat → ∀ index, index < 10 → matrix_loop mat index ≠ []).
Proof.
  assert (Hbig : 10 ≤ shape0 mat → ∀ index, index < 10 →
                 matrix_loop mat index ≠ []).
  { intros Hn index Hi Hnil.
    pose proof (length_matrix_loop mat index Hi) as Hlen.
    rewrite Hnil in Hlen. change (0 = shape0 mat / 10) in Hlen.
    pose proof (Nat.div_mod_eq (shape0 mat) 10).
    pose proof (Nat.mod_upper_bound (shape0 mat) 10). lia. }
  split; [|exact Hbig]. split.
  - intros Hall. destruct (decide (shape0 mat < 10)) as [|Hge]; [done|].
    exfalso. apply (Hbig ltac:(lia) 0); [lia|apply Hall].
  - intros Hsmall index. unfold Numpy.matrix_loop, index_start, index_end.
    rewrite (Nat.div_small _ _ Hsmall). reflexivity.
Qed.

End ChunkFacts.


(** ** The process cell: start them all, join them all *)

Section ProcessFacts.
Import Processes.
Context {Args : Type}.

Local Abbreviation State := (State (Args := Args)).

Lemma alive_exit (ps : list Process) (i : nat) :
  ps !! i = Some Alive → S (alive (<[i := Exited]> ps)) = alive ps.
Proof.
  unfold alive. revert i.
  induction ps as [|p ps IH]; intros [|i] Hi; simplify_eq/=.
  - by rewrite filter_cons_False by done.
  - specialize (IH i Hi). rewrite !filter_cons.
    destruct (decide (p = Alive)); simpl; lia.
Qed.

Lemma alive_le (ps : list Process) : alive ps ≤ length ps.
Proof. apply length_filter. Qed.

Lemma alive_replicate (n : nat) : alive (replicate n Alive) = n.
Proof.
  unfold alive. induction n as [|n IH]; [done|].
  change (replicate (S n) Alive) with (Alive :: replicate n Alive).
  rewrite filter_cons_True by done. simpl. by rewrite IH.
Qed.

(** Every move uses up one unit of work. *)
Lemma proc_work_step (m : move) (s s' : State) :
  proc_step m s = Some s' → S (proc_work s') = proc_work s.
Proof.
  destruct s as [ps ma]. unfold proc_step, proc_work. simpl.
  destruct m as [|i].
  - destruct ma as [[|a todo]|k|]; try done.
    + intros [= <-]. simpl. lia.
    + intros [= <-]. simpl. unfold alive.
      rewrite filter_app, !length_app, filter_cons_True by done. simpl. lia.
    + destruct (ps !! k) as [[|]|] eqn:Hk; try done; intros [= <-]; simpl.
      * apply lookup_lt_Some in Hk. lia.
      * apply lookup_ge_None in Hk. lia.
  - destruct (ps !! i) as [[|]|] eqn:Hi; try done. intros [= <-]. simpl.
    rewrite length_insert. pose proof (alive_exit ps i Hi). lia.
Qed.

Lemma proc_work_exec (ms : list move) (s s' : State) :
  proc_exec ms s = Some s' → length ms + proc_work s' = proc_work s.
Proof.
  revert s. induction ms as [|m ms IH]; simpl; intros s Hex.
  - by injection Hex as <-.
  - destruct (proc_step m s) as [s1|] eqn:Hstep; [|done]. simpl in Hex.
    pose proof (proc_work_step m s s1 Hstep). pose proof (IH s1 Hex). lia.
Qed.

(** Until the script is past its second loop, somebody can move: the
    script, or the process it is waiting for. *)
Lemma proc_progress (s : State) :
  s.2 ≠ Joined → ∃ m, is_Some (proc_step m s).
Proof.
  destruct s as [ps ma]. simpl. intros Hnj.
  destruct ma as [[|a todo]|k|]; [| | |done].
  - exists Script. simpl. eauto.
  - exists Script. simpl. eauto.
  - destruct (ps !! k) as [[|]|] eqn:Hk.
    + exists (Exit k). simpl. rewrite Hk. eauto.
    + exists Script. simpl. rewrite Hk. eauto.
    + exists Script. simpl. rewrite Hk. eauto.
Qed.

Lemma proc_reaches_joined (s : State) :
  ∃ ms s', proc_exec ms s = Some s' ∧ s'.2 = Joined.
Proof.
  remember (proc_work s) as n eqn:Hn. revert s Hn.
  induction (lt_wf n) as [n _ IH]. intros s ->.
  assert (s.2 = Joined ∨ s.2 ≠ Joined) as [Hj|Hnj].
  { destruct (s.2); [right|right|left]; done. }
  { by exists [], s. }
  destruct (proc_progress s Hnj) as [m [s1 Hs1]].
  pose proof (proc_work_step m s s1 Hs1) as Hw.
  destruct (IH (proc_work s1) ltac:(lia) s1 eq_refl) as (ms & s' & Hex & Hj).
  exists (m :: ms), s'. simpl. rewrite Hs1. simpl. done.
Qed.

Lemma join_inv_exec (args : list Args) (ms : list move) (s s' : State) :
  join_inv args s → proc_exec ms s = Some s' → join_inv args s'.
Proof.
  revert s. induction ms as [|m ms IH]; simpl; intros s Hinv Hex.
  - by injection Hex as <-.
  - destruct (proc_step m s) as [s1|] eqn:Hstep; [|done]. simpl in Hex.
    eapply IH; [|done]. by eapply join_inv_step.
Qed.

Lemma start_all (ps : list Process) (todo : list Args) :
  proc_exec (replicate (length todo) Script) (ps, Starting todo)
  = Some (ps ++ replicate (length todo) Alive, Starting []).
Proof.
  revert ps. induction todo as [|a todo IH]; intros ps; simpl.
  - by rewrite app_nil_r.
  - rewrite IH. by rewrite <- app_assoc.
Qed.

(** X6.  The join loop cannot hang, in whatever order the processes exit:
    from every state the cell can be in, some sequence of moves takes the
    script past the second loop; and no run of the cell has more than
    [3 * N + 2] moves for [N] chunks. *)
Theorem join_loop_terminates (args : list Args) (ms : list move) (s : State) :
  proc_exec ms (spawn_and_join args) = Some s →
  length ms ≤ 3 * length args + 2 ∧
  ∃ ms' s', proc_exec ms' s = Some s' ∧ s'.2 = Joined.
Proof.
  intros Hex. split; [|apply proc_reaches_joined].
  pose proof (proc_work_exec ms _ s Hex) as Hw.
  unfold proc_work, spawn_and_join, alive in Hw. simpl in Hw. lia.
Qed.

(** X7.  Nothing but the number of chunks bounds the processes running at
    once: after the first loop, when none has exited yet, all [N] of them
    are alive; and at no time are there more than [N] processes. *)
Theorem processes_all_at_once (args : list Args) :
  (∃ ms s, proc_exec ms (spawn_and_join args) = Some s ∧
           s.1 = replicate (length args) Alive ∧
           alive s.1 = length args) ∧
  (∀ ms s, proc_exec ms (spawn_and_join args) = Some s →
           alive s.1 ≤ length s.1 ∧ length s.1 ≤ length args).
Proof.
  split.
  - exists (replicate (length args) Script). eexists.
    split; [apply start_all|]. simpl. split; [done|apply alive_replicate].
  - intros ms s Hex. split; [apply alive_le|].
    pose proof (join_inv_exec args ms _ s
                  (eq_refl : join_inv args (spawn_and_join args)) Hex) as Hinv.
    unfold join_inv in Hinv.
    destruct (s.2); [lia|destruct Hinv as [Hlen _]; lia..].
Qed.

End ProcessFacts.

Lemma join_loop_barrier_witness :
  Forall (λ p, p = Processes.Exited)
         [Processes.Exited; Processes.Exited; Processes.Exited].
Proof.
  refine (proj2 (join_loop_barrier (Args := nat) [0; 1; 2]
                   [Processes.Script; Processes.Script; Processes.Script;
                    Processes.Script; Processes.Exit 2; Processes.Exit 0;
                    Processes.Script; Processes.Exit 1; Processes.Script;
                    Processes.Script; Processes.Script]
                   ([Processes.Exited; Processes.Exited; Processes.Exited],
                    Processes.Joined) _ eq_refl)).
  vm_compute. reflexivity.
Defined.

Lemma join_loop_terminates_witness :
  length [Processes.Script; Processes.Script; Processes.Exit 0] ≤ 3 * 2 + 2.
Proof.
  refine (proj1 (join_loop_terminates (Args := nat) [0; 1]
                   [Processes.Script; Processes.Script; Processes.Exit 0]
                   ([Processes.Exited; Processes.Alive], Processes.Starting [])
                   _)).
  vm_compute. reflexivity.
Defined.

(** ** The image filter, pixel by pixel *)

Section PixelFacts.
Import Image.
Context {R : Type} (sub : R → R → R) (leb : R → R → bool).

Local Abbreviation median_filter := (median_filter leb).
Local Abbreviation process_image := (process_image sub leb).
Local Abbreviation ndarray_sub := (ndarray_sub sub).

(** What the three lines of [process_image] do to the heap. *)
Lemma process_image_run (h : heap R) (frame : addr) (size : Z)
    (a smooth : Image.frame R) :
  h !! frame = Some a → median_filter a size = Some smooth →
  process_image h frame size
  = Some (h ++ [smooth; ndarray_sub a smooth], S (length h)).
Proof.
  intros Ha Hsm. pose proof (lookup_lt_Some _ _ _ Ha) as Hlt.
  unfold Image.process_image, ndimage_median_filter, ndarray_minus, alloc.
  rewrite Ha. simpl. rewrite Hsm. simpl.
  rewrite (lookup_app_l h [smooth] frame) by done. rewrite Ha. simpl.
  rewrite (lookup_app_r h [smooth] (length h)) by done.
  rewrite Nat.sub_diag. simpl.
  rewrite length_app, <- app_assoc. simpl. do 2 f_equal. lia.
Qed.

Lemma reflect_inside (n i : nat) : i < n → reflect n (Z.of_nat i) = i.
Proof.
  intros Hi. unfold reflect.
  rewrite Z.mod_small by lia.
  destruct (Z.ltb_spec (Z.of_nat i) (Z.of_nat n)); lia.
Qed.

Lemma pixel_inside (f : frame R) (d v : R) (y x : nat) (row : list R) :
  f !! y = Some row → row !! x = Some v →
  pixel f d (Z.of_nat y) (Z.of_nat x) = v.
Proof.
  intros Hy Hx. unfold pixel.
  rewrite (reflect_inside (length f) y) by (by eapply lookup_lt_Some).
  rewrite (nth_lookup_Some f y [] row Hy).
  rewrite (reflect_inside (length row) x) by (by eapply lookup_lt_Some).
  by apply nth_lookup_Some.
Qed.

(** A window of size 1 holds the pixel itself. *)
Lemma median_filter_size_one (f : frame R) : median_filter f 1 = Some f.
Proof.
  unfold Image.median_filter. simpl. f_equal.
  apply list_eq. intros y. rewrite list_lookup_imap.
  destruct (f !! y) as [row|] eqn:Hy; simpl; [|done]. f_equal.
  apply list_eq. intros x. rewrite list_lookup_imap.
  destruct (row !! x) as [v|] eqn:Hx; simpl; [|done]. f_equal.
  unfold median, window. simpl.
  rewrite !Z.add_0_r, !Z.sub_0_r.
  by rewrite (pixel_inside f v v y x row Hy Hx).
Qed.

Lemma pixel_of_pixel (f : frame R) (v : R) (y x : Z) :
  pixel_of f v → pixel_of f (pixel f v y x).
Proof.
  intros Hv. unfold pixel.
  rewrite (nth_lookup f).
  destruct (f !! reflect (length f) y) as [row|] eqn:Hrow; simpl.
  - rewrite (nth_lookup row).
    destruct (row !! reflect (length row) x) as [u|] eqn:Hu; simpl; [|done].
    exists row. split; by eapply list_elem_of_lookup_2.
  - by destruct (reflect 0 x).
Qed.

Lemma median_of_window (f : frame R) (v : R) (size y x : Z) :
  pixel_of f v → pixel_of f (median leb v (window f v size y x)).
Proof.
  intros Hv. unfold median.
  apply (Forall_nth_default (pixel_of f)); [|done].
  apply (sort_Forall leb). unfold window.
  apply List.Forall_forall. intros u Hu.
  apply in_flat_map in Hu as (dy & _ & Hu).
  apply in_map_iff in Hu as (dx & <- & _).
  by apply pixel_of_pixel.
Qed.

(** The median filter makes up no value: every pixel of its output is a
    pixel of its input. *)
Lemma median_filter_selects (f out : frame R) (size : Z)
    (y x : nat) (orow : list R) (u : R) :
  median_filter f size = Some out →
  out !! y = Some orow → orow !! x = Some u → pixel_of f u.
Proof.
  unfold Image.median_filter. destruct (size <=? 0)%Z; [done|].
  intros [= <-] Hy Hx.
  rewrite list_lookup_imap in Hy.
  destruct (f !! y) as [row|] eqn:Hrow; simplify_eq/=.
  rewrite list_lookup_imap in Hx.
  destruct (row !! x) as [v|] eqn:Hv; simplify_eq/=.
  apply median_of_window. exists row.
  split; by eapply list_elem_of_lookup_2.
Qed.

(** X8.  With a filter size of 1 the median filter changes nothing, so
    [process_image] returns [frame - frame]: every pixel [v] becomes
    [v - v]. *)
Theorem process_image_size_one
    (h : heap R) (frame : addr) (a : Image.frame R) :
  h !! frame = Some a →
  median_filter a 1 = Some a ∧
  ∃ h' out, process_image h frame 1 = Some (h', out) ∧
            h' !! out = Some (map (map (λ v, sub v v)) a).
Proof.
  intros Ha. split; [apply median_filter_size_one|].
  eexists _, _.
  split; [apply (process_image_run h frame 1 a a Ha), median_filter_size_one|].
  rewrite lookup_app_r by lia.
  replace (S (length h) - length h) with 1 by lia. simpl. f_equal.
  unfold Image.ndarray_sub. rewrite zip_with_diag.
  apply list_fmap_ext. intros _ row _. apply zip_with_diag.
Qed.

(** X9.  For a filter size of at least 1, every pixel of the processed
    frame is a pixel of [frame] minus a pixel of [frame]: the pixel at the
    same place minus the median the filter picked, which is one of the
    values [frame] holds. *)
Theorem process_image_pixels
    (h : heap R) (frame : addr) (filtersize : Z) (a : Image.frame R) :
  h !! frame = Some a →
  (1 ≤ filtersize)%Z →
  ∃ h' out result,
    process_image h frame filtersize = Some (h', out) ∧
    h' !! out = Some result ∧
    ∀ y x rrow w, result !! y = Some rrow → rrow !! x = Some w →
      ∃ arow v u, a !! y = Some arow ∧ arow !! x = Some v ∧
                  pixel_of a u ∧ w = sub v u.
Proof.
  intros Ha Hsize.
  destruct (proj2 (median_filter_size leb a filtersize) Hsize) as [smooth Hsm].
  eexists _, _, (ndarray_sub a smooth).
  split; [by apply (process_image_run h frame filtersize a smooth)|].
  split.
  { rewrite lookup_app_r by lia.
    by replace (S (length h) - length h) with 1 by lia. }
  intros y x rrow w Hy Hx. unfold Image.ndarray_sub in Hy.
  apply lookup_zip_with_Some in Hy as (arow & srow & -> & Hay & Hsy).
  apply lookup_zip_with_Some in Hx as (v & u & -> & Hav & Hsu).
  exists arow, v, u. split; [done|]. split; [done|]. split; [|done].
  by eapply median_filter_selects.
Qed.

End PixelFacts.

Lemma process_image_size_one_witness :
  ∃ h' out,
    Image.process_image_float [[[PrimFloat.one; PrimFloat.two]]] 0 1
      = Some (h', out) ∧
    h' !! out = Some [[PrimFloat.zero; PrimFloat.zero]].
Proof.
  exact (proj2 (process_image_size_one PrimFloat.sub PrimFloat.leb
                  [[[PrimFloat.one; PrimFloat.two]]] 0
                  [[PrimFloat.one; PrimFloat.two]] eq_refl)).
Defined.

Lemma process_image_pixels_witness :
  ∃ h' out result,
    Image.process_image Z.sub Z.leb [[[1; 2; 3]; [4; 50; 6]; [7; 8; 9]]%Z] 0 3
      = Some (h', out) ∧
    h' !! out = Some result.
Proof.
  destruct (process_image_pixels Z.sub Z.leb
              [[[1; 2; 3]; [4; 50; 6]; [7; 8; 9]]%Z] 0 3
              [[1; 2; 3]; [4; 50; 6]; [7; 8; 9]]%Z eq_refl ltac:(lia))
    as (h' & out & result & Hrun & Hout & _).
  by exists h', out, result.
Defined.

(** ** The names of the generated files *)

Section FileFacts.
Import Stdlib.Strings.String Stdlib.Strings.Ascii.
Import Stdlib.Numbers.DecimalString Stdlib.Numbers.DecimalNat.
Import Files.

Lemma append_cancel (p a b : string) :
  String.append p a = String.append p b → a = b.
Proof. induction p as [|c p IH]; simpl; [done|]. intros [= H]. by apply IH. Qed.

(** Two texts cut at the first occurrence of a character agree in both
    parts. *)
Lemma split_unique (c : ascii) (l1 l2 r1 r2 : string) :
  free c l1 → free c l2 →
  String.append l1 (String c r1) = String.append l2 (String c r2) →
  l1 = l2 ∧ r1 = r2.
Proof.
  revert l2. induction l1 as [|a l1 IH]; intros [|b l2]; simpl.
  - intros _ _ [= ->]. done.
  - intros _ [Hb _] [= <- _]. done.
  - intros [Ha _] _ [= -> _]. done.
  - intros [_ H1] [_ H2] [= -> H].
    destruct (IH l2 H1 H2 H) as [-> ->]. done.
Qed.

Lemma digits_free (c : ascii) (d : Decimal.uint) :
  Forall (λ k, k ≠ c) ["0"; "1"; "2"; "3"; "4"; "5"; "6"; "7"; "8"; "9"]%char →
  free c (NilEmpty.string_of_uint d).
Proof.
  intros Hc. repeat (apply Forall_cons in Hc as [? Hc]).
  induction d; simpl; auto.
Qed.

Lemma str_free (c : ascii) (n : nat) :
  Forall (λ k, k ≠ c) ["0"; "1"; "2"; "3"; "4"; "5"; "6"; "7"; "8"; "9"]%char →
  free c (str n).
Proof. apply digits_free. Qed.

Lemma str_inj (n m : nat) : str n = str m → n = m.
Proof.
  unfold str. intros H.
  apply (f_equal NilEmpty.uint_of_string) in H.
  rewrite !NilEmpty.usu in H. injection H as H.
  apply (f_equal Nat.of_uint) in H. by rewrite !Unsigned.of_to in H.
Qed.

Lemma fileformat_inj (ny nx i ny' nx' i' : nat) :
  fileformat ny nx i = fileformat ny' nx' i' → ny = ny' ∧ nx = nx' ∧ i = i'.
Proof.
  unfold fileformat. intros H. apply append_cancel in H.
  apply split_unique in H as [Hy H];
    [|apply str_free; repeat constructor; discriminate..].
  apply split_unique in H as [Hx H];
    [|apply str_free; repeat constructor; discriminate..].
  change ".fits"%string with (String "." "fits") in H.
  apply split_unique in H as [Hi _];
    [|apply str_free; repeat constructor; discriminate..].
  split; [|split]; by apply str_inj.
Qed.

(** X10.  The generation loop writes 25 files of pairwise different
    names, so that with [overwrite=True] no image replaces another; the
    file the next cell opens is the first of them; and two names are equal
    only for equal sizes and equal index. *)
Theorem fake_files_distinct (ny nx : nat) :
  NoDup (generated ny nx) ∧
  List.length (generated ny nx) = 25 ∧
  generated ny nx !! 0 = Some (opened ny nx) ∧
  (∀ ny' nx' i i', fileformat ny nx i = fileformat ny' nx' i' →
                   ny = ny' ∧ nx = nx' ∧ i = i').
Proof.
  split; [|split; [|split]].
  - unfold generated. change (List.map ?f ?l) with (f <$> l).
    apply NoDup_fmap_2_strong; [|apply NoDup_seq].
    intros i j _ _ H. by apply fileformat_inj in H as (_ & _ & ?).
  - reflexivity.
  - reflexivity.
  - intros ny' nx' i i'. apply fileformat_inj.
Qed.

Example fileformat_1000 :
  fileformat 1000 1000 7 = "../example_data/fake_1000x1000_7.fits"%string.
Proof. vm_compute. reflexivity. Qed.

End FileFacts.

(** ** The second loop while it runs *)

Section CollectFacts.
Import WorkerPool.
Context {Task V E : Type} (call : Task → Result V E) (has_shape : V → bool).

Local Abbreviation sys_inv := (sys_inv call has_shape).
Local Abbreviation sys_step := (sys_step call has_shape).
Local Abbreviation sys_exec := (sys_exec call has_shape).

Local Abbreviation System := (System Task V E).

Lemma received_inv_step (tasks : list Task) (a : action) (s s' : System) :
  sys_inv tasks s → received_inv call tasks s.2 →
  sys_step a s = Some s' → received_inv call tasks s'.2.
Proof.
  destruct s as [p d]. intros (Hinv & Hph & Hloop) [Hgot Hpend].
  destruct a as [|w h|w]; simpl in *.
  - destruct d as [[|t todo] js|[|h pending] got|got|got e]; simpl in *;
      try done.
    + intros [= <-]. destruct Hloop as [Ht Hjs].
      rewrite app_nil_r in Ht. subst tasks js. split; [done|].
      simpl. by rewrite Nat.sub_0_r.
    + destruct (apply_async t p) as [p' [h|e]]; by intros [= <-].
    + by intros [= <-].
    + destruct Hloop as (Hj & _).
      destruct (length tasks - length got) as [|m] eqn:Hd; [done|].
      simpl in Hpend. injection Hpend as -> ->.
      destruct (result_of (length got) p) as [r|] eqn:Hr; [|done].
      apply find_result_elem in Hr.
      destruct (inv_results _ _ Hinv _ r Hr) as (t & Ht & ->).
      rewrite Hj in Ht.
      destruct (call t) as [v|e] eqn:Hc; [destruct (has_shape v)|];
        intros [= <-]; simpl; [|done|done].
      split; simpl.
      * rewrite length_app, fmap_app. simpl. rewrite Nat.add_1_r.
        rewrite (take_S_r tasks (length got) t Ht), fmap_app. simpl.
        by rewrite Hgot, Hc.
      * rewrite length_app. simpl. f_equal; lia.
  - destruct (start w h p) as [p'|]; [|done]. by intros [= <-].
  - destruct (finish call w p) as [p'|]; [|done]. by intros [= <-].
Qed.

Lemma received_inv_exec (tasks : list Task) (sched : list action) (s s' : System) :
  sys_inv tasks s → received_inv call tasks s.2 →
  sys_exec sched s = Some s' → received_inv call tasks s'.2.
Proof.
  revert s. induction sched as [|a sched IH]; simpl; intros s Hinv Hrec Hex.
  - by injection Hex as <-.
  - destruct (sys_step a s) as [s1|] eqn:Hstep; [|done]. simpl in Hex.
    apply (IH s1); [by eapply sys_inv_step|by eapply received_inv_step|done].
Qed.

(** X11.  While the loops run, not only at their end: the pool has been
    handed the first tasks of the batch, in order, and all of them before
    the loop receives its first result; every Result the pool stores under
    a handle is the Result of the task at that position of the batch; and
    the results received so far are the values of the first tasks, in
    index order. *)
Theorem results_arrive_in_order
    (n : nat) (p0 : Pool Task V E) (tasks : list Task)
    (sched : list action) (s : System) :
  Pool_new n = Some p0 →
  sys_exec sched (p0, run_batch tasks) = Some s →
  jobs s.1 `prefix_of` tasks ∧
  (received s.2 ≠ [] → jobs s.1 = tasks) ∧
  (∀ h r, (h, r) ∈ results s.1 → ∃ t, tasks !! h = Some t ∧ r = call t) ∧
  Value <$> received s.2 = call <$> take (length (received s.2)) tasks.
Proof.
  intros Hnew Hex.
  pose proof (sys_inv_init call has_shape n p0 tasks Hnew) as Hinit.
  pose proof (sys_inv_exec call has_shape tasks sched _ s Hinit Hex)
    as (Hinv & _ & Hloop).
  assert (Hrec : received_inv call tasks s.2).
  { apply (received_inv_exec tasks sched (p0, run_batch tasks)); [done| |done].
    split; done. }
  assert (Hpre : jobs s.1 `prefix_of` tasks).
  { destruct s as [p d]. simpl in *.
    destruct d; simpl in Hloop; destruct Hloop as [Hj _];
      [by exists todo|by rewrite Hj..]. }
  split; [done|]. split; [|split].
  - destruct s as [p d]. simpl in *.
    destruct d; simpl in *; [done|by destruct Hloop..].
  - intros h r Hr. destruct (inv_results _ _ Hinv h r Hr) as (t & Ht & ->).
    exists t. split; [|done]. destruct Hpre as [rest ->].
    by apply lookup_app_l_Some.
  - by destruct Hrec.
Qed.

End CollectFacts.

Lemma results_arrive_in_order_witness :
  WorkerPool.Value (E := unit) <$> [Batch.int64 4950; Batch.int64 14950]
  = Batch.call_np_sum_but 2 <$> take 2 (seq 0 5).
Proof.
  refine (proj2 (proj2 (proj2
            (results_arrive_in_order (Batch.call_np_sum_but 2) Batch.hasattr_shape
               4 Batch.pool4 (seq 0 5)
               (Batch.one_by_one (seq 0 5) 5 3)
               (WorkerPool.mkPool 4 WorkerPool.Open [0; 1; 2; 3; 4] []
                  [None; None; None; None]
                  [(0, WorkerPool.Value (Batch.int64 4950));
                   (1, WorkerPool.Value (Batch.int64 14950));
                   (2, WorkerPool.Failure ());
                   (3, WorkerPool.Value (Batch.int64 34950));
                   (4, WorkerPool.Value (Batch.int64 44950))] [],
                WorkerPool.Raised [Batch.int64 4950; Batch.int64 14950]
                                  (WorkerPool.TaskError ()))
               eq_refl _)))).
  vm_compute. reflexivity.
Defined.
